(** * The coordinator's pool of provers

    A shallow embedding of [coordinator/proverspool.go] (the type
    [ProversPool] with [NewProversPool], [Add] and [Get]) and of the part of
    [common] it relies on ([ErrDone], [IsErrDone]).

    The pool is one buffered Go channel of [prover.Client] values; both
    methods are a two-way [select] between an operation on that channel and
    a receive from [ctx.Done()].  The embedding has three layers:

    - the values: clients, errors, contexts, the channel;
    - the two methods, written as the list of cases of their [select], and
      the rule that says when a case can proceed;
    - a world of goroutines that are inside [Get] or [Add], stepped by
      explicit events: the interleaving semantics of the channel.

    Part I holds the definitions, Part II the lemmas about them, Part III
    the properties of the pool.

    Part I also embeds the converters of [common/converters.go] and of the
    package [apitypes] (the cb formats of baby jubjub keys, account indexes
    and signatures, and the map of collected fees), with the functions of
    Go's library they call; Part IV holds more properties of the pool and
    the properties of the converters. *)

From Stdlib Require Import ZArith String Ascii Lia.
From stdpp Require Import base option list gmap.

Open Scope Z_scope.

(** * Part I: definitions *)

(** ** Values *)

Module prover.

(** [prover.Client] is an interface type.  A value of it is the nil
    interface or refers to one concrete client, told apart by identity. *)
Inductive Client : Type :=
| NilClient
| ClientAt (addr : nat).

#[global] Instance Client_eq_dec : EqDecision Client.
Proof. solve_decision. Defined.

End prover.

Abbreviation Client := prover.Client.
Abbreviation NilClient := prover.NilClient.
Abbreviation ClientAt := prover.ClientAt.

(** A value of Go's [error] interface: nil, a [*errors.errorString] made by
    [errors.New] (compared by address), or a [tracerr.Error] around one.
    The stack trace that [tracerr.Wrap] records is not represented; nothing
    in the pool reads it. *)
Inductive error : Type :=
| nil
| errorString (addr : nat) (s : string)
| traced (err : error).

#[global] Instance error_eq_dec : EqDecision error.
Proof. solve_decision. Defined.

Module errors.

(** [errors.New]: every call allocates; [addr] is the allocation. *)
Definition New (addr : nat) (text : string) : error := errorString addr text.

End errors.

Module tracerr.

(** [tracerr.Wrap]: nil stays nil, an error that already carries a trace
    is returned as it is, any other error gets a trace. *)
Definition Wrap (err : error) : error :=
  match err with
  | nil => nil
  | traced _ => err
  | errorString _ _ => traced err
  end.

(** [tracerr.Unwrap]: the error under the trace, or the error itself. *)
Definition Unwrap (err : error) : error :=
  match err with
  | nil => nil
  | traced e => e
  | errorString _ _ => err
  end.

End tracerr.

Module common.

(** The package-level error variables, in the order of their
    declaration; each [errors.New] is an allocation of its own. *)
Definition ErrNotInFF : error := errors.New 0 "BigInt not inside the Finite Field".
Definition ErrNumOverflow : error := errors.New 1 "Value overflows the type".
Definition ErrNonceOverflow : error := errors.New 2 "Nonce overflow, max value: 2**40 -1".
Definition ErrIdxOverflow : error := errors.New 3 "Idx overflow, max value: 2**48 -1".
Definition ErrBatchQueueEmpty : error := errors.New 4 "BatchQueue empty".
Definition ErrTODO : error := errors.New 5 "TODO".
Definition ErrDone : error := errors.New 6 "done".

(** [IsErrDone]: [tracerr.Unwrap(err) == ErrDone]. *)
Definition IsErrDone (err : error) : bool :=
  bool_decide (tracerr.Unwrap err = ErrDone).

End common.

(** [context.Context].  Only [Done()] is used: the background context has a
    nil [Done] channel, a cancellable one has a channel that is closed when
    the context is cancelled. *)
Inductive Context : Type :=
| Background
| WithCancel (id : nat).

#[global] Instance Context_eq_dec : EqDecision Context.
Proof. solve_decision. Defined.

(** A result of a Go function that may panic. *)
Inductive outcome (A : Type) : Type :=
| Returns (a : A)
| Panics (msg : string).
Arguments Returns {A} a.
Arguments Panics {A} msg.

(** A buffered channel of clients: its capacity and the queued values,
    oldest first.  The pool never closes its channel. *)
Record chan : Type := mkchan {
  chan_cap : Z;
  chan_buf : list Client
}.

(** The constants of the runtime's [makechan] on a 64-bit platform with 48
    bits of heap addresses (linux/amd64): the most the allocator gives, the
    size of the header of a channel, and the size of an element, here a
    [prover.Client], an interface value of two words. *)
Definition maxAlloc : Z := 2 ^ 48.
Definition hchanSize : Z := 96.
Definition elem_size : Z := 16.

(** [make(chan prover.Client, size)], that is the runtime's [makechan]:
    [mem, overflow := math.MulUintptr(elem.size, uintptr(size))], then a
    panic [if overflow || mem > maxAlloc-hchanSize || size < 0].  [size] is
    an [int] of 64 bits.  For a size that is not negative [uintptr(size)]
    is the size, and the product overflows when it does not fit 64 bits; a
    negative size panics whatever the product is.  When the size passes
    the test the buffer is allocated: that the allocation succeeds is
    assumed (when memory runs out the runtime ends the program with a
    fatal error, which is neither a return nor a panic). *)
Definition make_chan (size : Z) : outcome chan :=
  let mem := elem_size * size in
  let overflow := 2 ^ 64 <=? mem in
  if overflow || (maxAlloc - hchanSize <? mem) || (size <? 0)
  then Panics "makechan: size out of range"
  else Returns (mkchan size []).

(** The largest capacity [makechan] accepts for a channel of
    [prover.Client]. *)
Definition maxChanSize : Z := (maxAlloc - hchanSize) / elem_size.

(** [type ProversPool struct { pool chan prover.Client }] *)
Record ProversPool : Type := mkProversPool {
  pool : chan
}.

(** [NewProversPool] *)
Definition NewProversPool (maxServerProofs : Z) : outcome ProversPool :=
  match make_chan maxServerProofs with
  | Returns c => Returns (mkProversPool c)
  | Panics msg => Panics msg
  end.

(** ** The select statement *)

(** One case of a [select] in this file: a receive from [ctx.Done()], a
    receive from [p.pool] binding the value, or a send on [p.pool].  [body]
    is what the function returns when the case is taken. *)
Inductive comm (A : Type) : Type :=
| RecvDone (ctx : Context) (body : A)
| RecvPool (body : Client → A)
| SendPool (v : Client) (body : A).
Arguments RecvDone {A} ctx body.
Arguments RecvPool {A} body.
Arguments SendPool {A} v body.

(** The cases of a [select], in source order. *)
Definition select (A : Type) : Type := list (comm A).

(** [Add]
<<
   select {
   case p.pool <- serverProof:
   case <-ctx.Done():
   }
>> *)
Definition Add (ctx : Context) (serverProof : Client) : select unit :=
  [ SendPool serverProof tt;
    RecvDone ctx tt ].

(** [Get]
<<
   select {
   case <-ctx.Done():
       return nil, tracerr.Wrap(common.ErrDone)
   case serverProof := <-p.pool:
       return serverProof, nil
   }
>>
    ([log.Info] only writes to the log.) *)
Definition Get (ctx : Context) : select (Client * error) :=
  [ RecvDone ctx (NilClient, tracerr.Wrap common.ErrDone);
    RecvPool (λ serverProof, (serverProof, nil)) ].

(** What taking a case did to the channel. *)
Inductive effect : Type :=
| Sent (v : Client)
| Received (v : Client)
| SawDone.

(** Is [ctx.Done()] closed, given the contexts cancelled so far? *)
Definition is_done (cancelled : list nat) (ctx : Context) : bool :=
  match ctx with
  | Background => false
  | WithCancel id => bool_decide (id ∈ cancelled)
  end.

(** When a case can proceed on its own, and what it does: a receive from a
    closed [Done] channel (a [Done] channel is never sent on, and the nil
    [Done] channel of the background context is never ready); a receive
    from a non-empty buffer, which takes the oldest value; a send to a
    buffer with a free slot, which queues the value last. *)
Definition proceed {A} (cancelled : list nat) (p : ProversPool) (c : comm A)
  : option (ProversPool * effect * A) :=
  match c with
  | RecvDone ctx body =>
      if is_done cancelled ctx then Some (p, SawDone, body) else None
  | RecvPool body =>
      match chan_buf (pool p) with
      | v :: rest =>
          Some (mkProversPool (mkchan (chan_cap (pool p)) rest), Received v, body v)
      | [] => None
      end
  | SendPool v body =>
      if Z.of_nat (length (chan_buf (pool p))) <? chan_cap (pool p)
      then Some (mkProversPool (mkchan (chan_cap (pool p)) (chan_buf (pool p) ++ [v])),
                 Sent v, body)
      else None
  end.

(** The cases of a [select] that can proceed, as (index, result).  Go takes
    one of them by a pseudo-random choice; with none the goroutine
    blocks. *)
Definition ready {A} (cancelled : list nat) (p : ProversPool) (s : select A)
  : list (nat * (ProversPool * effect * A)) :=
  omap (λ ic, (λ r, (ic.1, r)) <$> proceed cancelled p ic.2) (imap pair s).

(** The send case and the receive case of a [select], for a hand-off
    between a sender and a receiver that both wait on the channel. *)
Fixpoint send_case {A} (s : select A) : option (Client * A) :=
  match s with
  | [] => None
  | SendPool v body :: _ => Some (v, body)
  | _ :: s' => send_case s'
  end.

Fixpoint recv_case {A} (s : select A) : option (Client → A) :=
  match s with
  | [] => None
  | RecvPool body :: _ => Some body
  | _ :: s' => recv_case s'
  end.

(** ** Goroutines inside the pool *)

(** A call of a method of the pool that has not returned yet.  [release]
    records what the caller is doing with [Add]: seeding the pool with a
    handle, or giving back a handle it got from [Get] (the pool itself
    cannot tell; both are [Add]). *)
Inductive call : Type :=
| GetCall (ctx : Context)
| AddCall (ctx : Context) (serverProof : Client) (release : bool).

(** What a call returns: [Get] a pair, [Add] nothing. *)
Inductive ret : Type :=
| GetRet (r : Client * error)
| AddRet (r : unit).

Definition comm_map {A B} (f : A → B) (c : comm A) : comm B :=
  match c with
  | RecvDone ctx body => RecvDone ctx (f body)
  | RecvPool body => RecvPool (λ v, f (body v))
  | SendPool v body => SendPool v (f body)
  end.

(** The [select] a call is executing. *)
Definition call_select (c : call) : select ret :=
  match c with
  | GetCall ctx => comm_map GetRet <$> Get ctx
  | AddCall ctx serverProof _ => comm_map AddRet <$> Add ctx serverProof
  end.

Definition is_release (c : call) : bool :=
  match c with
  | AddCall _ _ release => release
  | GetCall _ => false
  end.

(** The [ctx] of a call, the position of [<-ctx.Done()] in its [select],
    and what the call returns when that case is taken. *)
Definition call_ctx (c : call) : Context :=
  match c with
  | GetCall ctx => ctx
  | AddCall ctx _ _ => ctx
  end.

Definition done_case (c : call) : nat :=
  match c with
  | GetCall _ => 0
  | AddCall _ _ _ => 1
  end.

Definition cancelled_ret (c : call) : ret :=
  match c with
  | GetCall _ => GetRet (NilClient, tracerr.Wrap common.ErrDone)
  | AddCall _ _ _ => AddRet tt
  end.

(** Remove one occurrence. *)
Fixpoint remove1 (h : Client) (l : list Client) : list Client :=
  match l with
  | [] => []
  | x :: l' => if decide (x = h) then l' else x :: remove1 h l'
  end.

(** The pool shared by the goroutines, the contexts cancelled so far, the
    calls in progress by goroutine, and the bookkeeping the properties are
    stated with: the handles workers hold ([out]), everything ever sent on
    and received from the channel, in order ([sent], [recvd]), the number
    of seeding [Add]s that went through and of handles thrown away. *)
Record World : Type := mkWorld {
  pp : ProversPool;
  cancelled : list nat;
  waiting : gmap nat call;
  out : list Client;
  sent : list Client;
  recvd : list Client;
  seeded : nat;
  discarded : nat
}.

Definition start (p : ProversPool) : World :=
  mkWorld p [] ∅ [] [] [] 0 0.

(** What can happen, one at a time: a goroutine enters a method; the
    [select] of a goroutine inside a method takes one of its cases that can
    proceed; a send and a receive that both wait meet on an empty buffer
    and the value goes straight from the sender to the receiver (the only
    way a channel of capacity 0 passes a value); a context is cancelled; a
    worker drops a handle instead of giving it back. *)
Inductive event : Type :=
| CallGet (g : nat) (ctx : Context)             (* g calls p.Get(ctx) *)
| CallAdd (g : nat) (ctx : Context) (h : Client) (* g calls p.Add(ctx, h) to seed *)
| CallRelease (g : nat) (ctx : Context) (h : Client)
                                                (* g calls p.Add(ctx, h) with a handle it holds *)
| Proceed (g : nat) (i : nat)                   (* g's select takes its case number i *)
| Handoff (gs gr : nat)                         (* gs's send meets gr's receive *)
| Cancel (id : nat)                             (* the context is cancelled *)
| Discard (h : Client).                         (* a worker drops a handle it holds *)

(** Goroutine [g], not inside a call, enters [c]; [o] are the handles held
    from then on. *)
Definition enter (g : nat) (c : call) (o : list Client) (w : World) : option World :=
  match waiting w !! g with
  | Some _ => None
  | None =>
      Some (mkWorld (pp w) (cancelled w) (<[g := c]> (waiting w)) o
                    (sent w) (recvd w) (seeded w) (discarded w))
  end.

(** The world after goroutine [g], inside [c], took a case with effect [e]
    that left the pool as [p']. *)
Definition settle (g : nat) (c : call) (e : effect) (p' : ProversPool) (w : World)
  : World :=
  match e with
  | Sent v =>
      mkWorld p' (cancelled w) (delete g (waiting w)) (out w)
              (sent w ++ [v]) (recvd w)
              (if is_release c then seeded w else S (seeded w)) (discarded w)
  | Received v =>
      mkWorld p' (cancelled w) (delete g (waiting w)) (v :: out w)
              (sent w) (recvd w ++ [v]) (seeded w) (discarded w)
  | SawDone =>
      mkWorld p' (cancelled w) (delete g (waiting w))
              (match c with
               | AddCall _ h true => h :: out w
               | _ => out w
               end)
              (sent w) (recvd w) (seeded w) (discarded w)
  end.

(** One atomic step.  The result is the new world and the calls that
    returned in this step, with what they returned. *)
Definition step (ev : event) (w : World) : option (World * list (nat * ret)) :=
  match ev with
  | CallGet g ctx =>
      w' ← enter g (GetCall ctx) (out w) w; Some (w', [])
  | CallAdd g ctx h =>
      w' ← enter g (AddCall ctx h false) (out w) w; Some (w', [])
  | CallRelease g ctx h =>
      if decide (h ∈ out w)
      then w' ← enter g (AddCall ctx h true) (remove1 h (out w)) w; Some (w', [])
      else None
  | Proceed g i =>
      c ← waiting w !! g;
      cm ← call_select c !! i;
      r ← proceed (cancelled w) (pp w) cm;
      Some (settle g c r.1.2 r.1.1 w, [(g, r.2)])
  | Handoff gs gr =>
      cs ← waiting w !! gs;
      cr ← waiting w !! gr;
      s ← send_case (call_select cs);
      body ← recv_case (call_select cr);
      match chan_buf (pool (pp w)) with
      | [] =>
          Some (mkWorld (pp w) (cancelled w) (delete gr (delete gs (waiting w)))
                        (s.1 :: out w) (sent w ++ [s.1]) (recvd w ++ [s.1])
                        (if is_release cs then seeded w else S (seeded w))
                        (discarded w),
                [(gs, s.2); (gr, body s.1)])
      | _ :: _ => None
      end
  | Cancel id =>
      Some (mkWorld (pp w) (id :: cancelled w) (waiting w) (out w)
                    (sent w) (recvd w) (seeded w) (discarded w), [])
  | Discard h =>
      if decide (h ∈ out w)
      then Some (mkWorld (pp w) (cancelled w) (waiting w) (remove1 h (out w))
                         (sent w) (recvd w) (seeded w) (S (discarded w)), [])
      else None
  end.

(** A run: the events in order; the returns are collected in order. *)
Fixpoint run (tr : list event) (w : World) : option (World * list (nat * ret)) :=
  match tr with
  | [] => Some (w, [])
  | ev :: tr' =>
      r ← step ev w;
      r' ← run tr' r.1;
      Some (r'.1, r.2 ++ r'.2)
  end.

(** ** What the properties are stated with *)

(** The handles of the [Add] calls in progress: all of them, and those
    that are releases. *)
Definition add_handle (c : call) : option Client :=
  match c with
  | AddCall _ h _ => Some h
  | GetCall _ => None
  end.

Definition release_handle (c : call) : option Client :=
  match c with
  | AddCall _ h true => Some h
  | _ => None
  end.

Definition handles (f : call → option Client) (m : gmap nat call) : list Client :=
  omap (λ gc, f gc.2) (map_to_list m).

Definition inflight (w : World) : list Client := handles add_handle (waiting w).
Definition releasing (w : World) : list Client := handles release_handle (waiting w).

(** The handles available in the pool, and the handles checked out: held
    by a worker, or on their way back in an [Add] that has not gone
    through. *)
Definition available (w : World) : list Client := chan_buf (pool (pp w)).
Definition checked_out (w : World) : list Client := out w ++ releasing w.

(** The handles the pool and its callers know. *)
Definition resident (w : World) : list Client := available w ++ out w ++ inflight w.

Definition capacity (w : World) : Z := chan_cap (pool (pp w)).

(** A goroutine is blocked when it is inside a call and no step makes it
    return. *)
Definition Blocked (w : World) (g : nat) : Prop :=
  is_Some (waiting w !! g) ∧
  ∀ ev w' rs, step ev w = Some (w', rs) → g ∉ rs.*1.

Definition get_waiting (w : World) : Prop :=
  ∃ g ctx, waiting w !! g = Some (GetCall ctx).

Definition add_waiting (w : World) : Prop :=
  ∃ g ctx h rel, waiting w !! g = Some (AddCall ctx h rel).

(** Callers that never hand the pool a handle it already knows: every
    seeding [Add] is of a handle that is neither available, nor held, nor
    in another [Add]. *)
Definition careful (ev : event) (w : World) : Prop :=
  match ev with
  | CallAdd _ _ h => h ∉ available w ++ out w ++ inflight w
  | _ => True
  end.


#[global] Instance careful_dec ev w : Decision (careful ev w).
Proof. destruct ev; simpl; apply _. Defined.


(** A seeding [Add] of a handle that is not nil. *)
Definition non_nil_add (ev : event) : Prop :=
  match ev with
  | CallAdd _ _ h => h ≠ NilClient
  | _ => True
  end.

#[global] Instance non_nil_add_dec ev : Decision (non_nil_add ev).
Proof. destruct ev; simpl; apply _. Defined.

(** ** The steps as relations *)

(** What a step that makes a goroutine return looks like. *)
Inductive returning (w : World) (g : nat) : ret → World → Prop :=
| ret_get_done ctx :
    waiting w !! g = Some (GetCall ctx) →
    is_done (cancelled w) ctx = true →
    returning w g (GetRet (NilClient, tracerr.Wrap common.ErrDone))
      (settle g (GetCall ctx) SawDone (pp w) w)
| ret_get_recv ctx v rest :
    waiting w !! g = Some (GetCall ctx) →
    available w = v :: rest →
    returning w g (GetRet (v, nil))
      (settle g (GetCall ctx) (Received v)
         (mkProversPool (mkchan (chan_cap (pool (pp w))) rest)) w)
| ret_add_send ctx h rel :
    waiting w !! g = Some (AddCall ctx h rel) →
    Z.of_nat (length (available w)) < chan_cap (pool (pp w)) →
    returning w g (AddRet tt)
      (settle g (AddCall ctx h rel) (Sent h)
         (mkProversPool (mkchan (chan_cap (pool (pp w))) (available w ++ [h]))) w)
| ret_add_done ctx h rel :
    waiting w !! g = Some (AddCall ctx h rel) →
    is_done (cancelled w) ctx = true →
    returning w g (AddRet tt) (settle g (AddCall ctx h rel) SawDone (pp w) w)
| ret_handoff_send g' ctx h rel ctx' :
    waiting w !! g = Some (AddCall ctx h rel) →
    waiting w !! g' = Some (GetCall ctx') →
    available w = [] →
    returning w g (AddRet tt)
      (mkWorld (pp w) (cancelled w) (delete g' (delete g (waiting w)))
         (h :: out w) (sent w ++ [h]) (recvd w ++ [h])
         (if rel then seeded w else S (seeded w)) (discarded w))
| ret_handoff_recv g' ctx h rel ctx' :
    waiting w !! g' = Some (AddCall ctx h rel) →
    waiting w !! g = Some (GetCall ctx') →
    available w = [] →
    returning w g (GetRet (h, nil))
      (mkWorld (pp w) (cancelled w) (delete g (delete g' (waiting w)))
         (h :: out w) (sent w ++ [h]) (recvd w ++ [h])
         (if rel then seeded w else S (seeded w)) (discarded w)).

(** Every step, by what it does to the world. *)
Inductive transition (w : World) : event → World → Prop :=
| t_call_get g ctx :
    waiting w !! g = None →
    transition w (CallGet g ctx)
      (mkWorld (pp w) (cancelled w) (<[g := GetCall ctx]> (waiting w)) (out w)
         (sent w) (recvd w) (seeded w) (discarded w))
| t_call_add g ctx h :
    waiting w !! g = None →
    transition w (CallAdd g ctx h)
      (mkWorld (pp w) (cancelled w) (<[g := AddCall ctx h false]> (waiting w)) (out w)
         (sent w) (recvd w) (seeded w) (discarded w))
| t_release g ctx h :
    waiting w !! g = None →
    h ∈ out w →
    transition w (CallRelease g ctx h)
      (mkWorld (pp w) (cancelled w) (<[g := AddCall ctx h true]> (waiting w))
         (remove1 h (out w)) (sent w) (recvd w) (seeded w) (discarded w))
| t_proceed g i r w' :
    returning w g r w' →
    transition w (Proceed g i) w'
| t_handoff gs gr r w' :
    returning w gs r w' →
    transition w (Handoff gs gr) w'
| t_cancel id :
    transition w (Cancel id)
      (mkWorld (pp w) (id :: cancelled w) (waiting w) (out w)
         (sent w) (recvd w) (seeded w) (discarded w))
| t_discard h :
    h ∈ out w →
    transition w (Discard h)
      (mkWorld (pp w) (cancelled w) (waiting w) (remove1 h (out w))
         (sent w) (recvd w) (seeded w) (S (discarded w))).

(** ** One goroutine at a time *)

(** All the ways a call can return when no other goroutine is inside the
    pool: one per case that can proceed, none when the call blocks. *)
Definition alone {A} (cancelled : list nat) (s : select A) (p : ProversPool)
  : list (ProversPool * A) :=
  (λ x, (x.2.1.1, x.2.2)) <$> ready cancelled p s.

(** [Add] of each handle in turn: the pools that can result. *)
Fixpoint add_each (cancelled : list nat) (ctx : Context) (hs : list Client)
    (p : ProversPool) : list ProversPool :=
  match hs with
  | [] => [p]
  | h :: hs' => x ← alone cancelled (Add ctx h) p; add_each cancelled ctx hs' x.1
  end.

(** [k] times [Get]: the pools that can result, with what the calls
    returned, in order. *)
Fixpoint get_times (cancelled : list nat) (ctx : Context) (k : nat)
    (p : ProversPool) : list (ProversPool * list (Client * error)) :=
  match k with
  | O => [(p, [])]
  | S k' =>
      x ← alone cancelled (Get ctx) p;
      y ← get_times cancelled ctx k' x.1;
      [(y.1, x.2 :: y.2)]
  end.

(** ** Scenarios *)

(** Two workers and a seeder on a pool of capacity 2: two handles are
    seeded, each worker gets one, the first worker gives its handle back. *)
Definition two_workers : list event :=
  [ CallAdd 0 Background (ClientAt 1); Proceed 0 0;
    CallAdd 0 Background (ClientAt 2); Proceed 0 0;
    CallGet 1 (WithCancel 1); Proceed 1 1;
    CallGet 2 (WithCancel 1); Proceed 2 1;
    CallRelease 1 (WithCancel 1) (ClientAt 1); Proceed 1 0 ].

Definition after_two_workers : World :=
  mkWorld (mkProversPool (mkchan 2 [ClientAt 1])) [] ∅ [ClientAt 2]
    [ClientAt 1; ClientAt 2; ClientAt 1] [ClientAt 1; ClientAt 2] 2 0.

Definition two_workers_returns : list (nat * ret) :=
  [ (0%nat, AddRet tt); (0%nat, AddRet tt);
    (1%nat, GetRet (ClientAt 1, nil)); (2%nat, GetRet (ClientAt 2, nil));
    (1%nat, AddRet tt) ].



(** A pool of capacity 1: a handle is seeded and checked out, then a second
    handle is seeded.  The second [Add] goes through at once. *)
Definition seed_while_checked_out : list event :=
  [ CallAdd 0 Background (ClientAt 1); Proceed 0 0;
    CallGet 1 Background; Proceed 1 1;
    CallAdd 0 Background (ClientAt 2); Proceed 0 0 ].

Definition after_seed_while_checked_out : World :=
  mkWorld (mkProversPool (mkchan 1 [ClientAt 2])) [] ∅ [ClientAt 1]
    [ClientAt 1; ClientAt 2] [ClientAt 1] 2 0.

(** Then a third handle is seeded: that [Add] has to wait. *)
Definition third_seed : list event :=
  seed_while_checked_out ++ [ CallAdd 2 Background (ClientAt 3) ].

Definition inside_third_seed : World :=
  mkWorld (mkProversPool (mkchan 1 [ClientAt 2])) []
    {[ 2%nat := AddCall Background (ClientAt 3) false ]} [ClientAt 1]
    [ClientAt 1; ClientAt 2] [ClientAt 1] 2 0.

(** A pool of capacity 1 holds a handle; the context is cancelled; then a
    goroutine calls [Get] with that context. *)
Definition get_after_cancel : list event :=
  [ CallAdd 0 (WithCancel 1) (ClientAt 1); Proceed 0 0;
    Cancel 1;
    CallGet 1 (WithCancel 1) ].

Definition inside_get_after_cancel : World :=
  mkWorld (mkProversPool (mkchan 1 [ClientAt 1])) [1%nat]
    {[ 1%nat := GetCall (WithCancel 1) ]} [] [ClientAt 1] [] 1 0.

(** A pool of capacity 1 is full; a goroutine calls [Add] with a context
    that is then cancelled. *)
Definition add_after_cancel : list event :=
  [ CallAdd 0 (WithCancel 1) (ClientAt 1); Proceed 0 0;
    CallAdd 2 (WithCancel 1) (ClientAt 2);
    Cancel 1 ].

Definition inside_add_after_cancel : World :=
  mkWorld (mkProversPool (mkchan 1 [ClientAt 1])) [1%nat]
    {[ 2%nat := AddCall (WithCancel 1) (ClientAt 2) false ]} [] [ClientAt 1] [] 1 0.


(** ** The error variables, and what a run was given and returned *)

(** The error variables of [common]. *)
Definition error_variables : list error :=
  [ common.ErrNotInFF; common.ErrNumOverflow; common.ErrNonceOverflow;
    common.ErrIdxOverflow; common.ErrBatchQueueEmpty; common.ErrTODO; common.ErrDone ].

(** The handles that calls of [Get] returned with a nil error, in the order
    the calls returned. *)
Definition got (rs : list (nat * ret)) : list Client :=
  omap (λ gr, match gr.2 with
              | GetRet (h, nil) => Some h
              | _ => None
              end) rs.

(** The handles given to the seeding calls of [Add] in a run. *)
Definition seeds (tr : list event) : list Client :=
  omap (λ ev, match ev with
              | CallAdd _ _ h => Some h
              | _ => None
              end) tr.

(** ** Bytes and strings

    The rest of Part I embeds the converters of [common/converters.go] and
    of the package [apitypes], with the functions of Go's library they
    call.  A Go string and a byte slice are the list of their bytes. *)

(** A Go string or byte slice: its bytes. *)
Definition bytes (s : string) : list ascii := list_ascii_of_string s.

(** The value of a byte, and the byte of a value (which wraps, as a
    conversion to [byte] and byte arithmetic do). *)
Definition b2z (c : ascii) : Z := Z.of_N (N_of_ascii c).
Definition z2b (z : Z) : ascii := ascii_of_N (Z.to_N (z mod 256)).

Module strings.

(** [strings.HasPrefix(s, prefix)] *)
Fixpoint HasPrefix (s prefix : list ascii) : bool :=
  match prefix, s with
  | [], _ => true
  | p :: prefix', c :: s' => bool_decide (p = c) && HasPrefix s' prefix'
  | _ :: _, [] => false
  end.

(** [strings.TrimPrefix(s, prefix)] *)
Definition TrimPrefix (s prefix : list ascii) : list ascii :=
  if HasPrefix s prefix then drop (length prefix) s else s.

(** The pieces of [s] between the occurrences of [sep], taken from the
    left and not overlapping; [skip] is the number of bytes of an
    occurrence still to pass over. *)
Fixpoint split_from (sep s : list ascii) (skip : nat) : list (list ascii) :=
  match s with
  | [] => [[]]
  | c :: s' =>
      match skip with
      | S k => split_from sep s' k
      | O =>
          if HasPrefix s sep
          then [] :: split_from sep s' (length sep - 1)
          else match split_from sep s' 0 with
               | piece :: pieces => (c :: piece) :: pieces
               | [] => [[c]]
               end
      end
  end.

(** [strings.Split(s, sep)] for a separator that is not empty (with the
    empty separator Go cuts after every UTF-8 sequence; every call here
    has a literal separator). *)
Definition Split (s sep : list ascii) : list (list ascii) :=
  match sep with
  | [] => (λ c, [c]) <$> s
  | _ :: _ => split_from sep s 0
  end.

End strings.

(** [strings.Join(elems, sep)] *)
Fixpoint Join (elems : list (list ascii)) (sep : list ascii) : list ascii :=
  match elems with
  | [] => []
  | [e] => e
  | e :: elems' => e ++ sep ++ Join elems' sep
  end.

(** ** [encoding/base64] *)

Module base64.

(** The alphabet of [base64.RawURLEncoding] (URL-safe, no padding). *)
Definition encodeURL : list ascii :=
  bytes "ABCDEFGHIJKLMNOPQRSTUVWXYZabcdefghijklmnopqrstuvwxyz0123456789-_".

Definition encode (v : Z) : ascii := default "A"%char (encodeURL !! Z.to_nat v).

(** The decode map: the position of a byte in the alphabet. *)
Definition decodeMap (c : ascii) : option Z :=
  (λ ic, Z.of_nat ic.1) <$> list_find (λ x, x = c) encodeURL.

(** [RawURLEncoding.EncodeToString]: three bytes give four characters, a
    last group of two bytes three, of one byte two; no padding. *)
Fixpoint EncodeToString (src : list ascii) : list ascii :=
  match src with
  | a :: b :: c :: rest =>
      let val := Z.lor (Z.lor (Z.shiftl (b2z a) 16) (Z.shiftl (b2z b) 8)) (b2z c) in
      encode (Z.land (Z.shiftr val 18) 63) ::
      encode (Z.land (Z.shiftr val 12) 63) ::
      encode (Z.land (Z.shiftr val 6) 63) ::
      encode (Z.land val 63) :: EncodeToString rest
  | [a; b] =>
      let val := Z.lor (Z.shiftl (b2z a) 16) (Z.shiftl (b2z b) 8) in
      [ encode (Z.land (Z.shiftr val 18) 63);
        encode (Z.land (Z.shiftr val 12) 63);
        encode (Z.land (Z.shiftr val 6) 63) ]
  | [a] =>
      let val := Z.shiftl (b2z a) 16 in
      [ encode (Z.land (Z.shiftr val 18) 63);
        encode (Z.land (Z.shiftr val 12) 63) ]
  | [] => []
  end.

(** The six-bit values of the characters of [s]: carriage returns and line
    feeds are passed over, any other byte outside the alphabet is an
    error. *)
Fixpoint digits (s : list ascii) : option (list Z) :=
  match s with
  | [] => Some []
  | c :: s' =>
      match decodeMap c with
      | Some v => (v ::.) <$> digits s'
      | None =>
          if bool_decide (c = "010"%char ∨ c = "013"%char) then digits s' else None
      end
  end.

(** Four values give three bytes; a last group of three values two bytes,
    of two values one byte (the bits left over are dropped: the encoding
    is not strict); a last group of one value is an error. *)
Fixpoint assemble (ds : list Z) : option (list ascii) :=
  match ds with
  | d0 :: d1 :: d2 :: d3 :: rest =>
      let val := Z.lor (Z.lor (Z.lor (Z.shiftl d0 18) (Z.shiftl d1 12)) (Z.shiftl d2 6)) d3 in
      (λ out, z2b (Z.shiftr val 16) :: z2b (Z.shiftr val 8) :: z2b val :: out)
        <$> assemble rest
  | [d0; d1; d2] =>
      let val := Z.lor (Z.lor (Z.shiftl d0 18) (Z.shiftl d1 12)) (Z.shiftl d2 6) in
      Some [z2b (Z.shiftr val 16); z2b (Z.shiftr val 8)]
  | [d0; d1] =>
      let val := Z.lor (Z.shiftl d0 18) (Z.shiftl d1 12) in
      Some [z2b (Z.shiftr val 16)]
  | [_] => None
  | [] => Some []
  end.

(** [RawURLEncoding.DecodeString]: the bytes, or [None] for a
    [CorruptInputError]. *)
Definition DecodeString (s : list ascii) : option (list ascii) :=
  digits s ≫= assemble.

End base64.

(** The six-bit values of the encoding of [src]. *)
Fixpoint values (src : list ascii) : list Z :=
  match src with
  | a :: b :: c :: rest =>
      let val := b2z a * 65536 + b2z b * 256 + b2z c in
      val / 262144 :: (val / 4096) mod 64 :: (val / 64) mod 64 :: val mod 64 :: values rest
  | [a; b] =>
      let val := b2z a * 65536 + b2z b * 256 in
      [val / 262144; (val / 4096) mod 64; (val / 64) mod 64]
  | [a] =>
      let val := b2z a * 65536 in
      [val / 262144; (val / 4096) mod 64]
  | [] => []
  end.

(** A value of six bits. *)
Definition sextet (v : Z) : Prop := 0 ≤ v < 64.

(** ** [encoding/hex] *)

Module hex.

Definition hextable : list ascii := bytes "0123456789abcdef".

Definition hexchar (v : Z) : ascii := default "0"%char (hextable !! Z.to_nat v).

(** [hex.EncodeToString]: two characters for every byte. *)
Definition EncodeToString (src : list ascii) : list ascii :=
  v ← src; [hexchar (Z.shiftr (b2z v) 4); hexchar (Z.land (b2z v) 15)].

(** [InvalidByteError] and [ErrLength] *)
Inductive Error : Type :=
| InvalidByteError (b : ascii)
| ErrLength.

(** The value of a hexadecimal digit, of either case. *)
Definition fromHexChar (c : ascii) : option Z :=
  let v := b2z c in
  if (48 <=? v) && (v <=? 57) then Some (v - 48)
  else if (97 <=? v) && (v <=? 102) then Some (v - 97 + 10)
  else if (65 <=? v) && (v <=? 70) then Some (v - 65 + 10)
  else None.

(** [hex.DecodeString]: the bytes decoded before the error, and the
    error. *)
Fixpoint DecodeString (s : list ascii) : list ascii * option Error :=
  match s with
  | p :: q :: rest =>
      match fromHexChar p with
      | None => ([], Some (InvalidByteError p))
      | Some a =>
          match fromHexChar q with
          | None => ([], Some (InvalidByteError q))
          | Some b =>
              let r := DecodeString rest in
              (z2b (Z.lor (Z.shiftl a 4) b) :: r.1, r.2)
          end
      end
  | [p] =>
      match fromHexChar p with
      | None => ([], Some (InvalidByteError p))
      | Some _ => ([], Some ErrLength)
      end
  | [] => ([], None)
  end.

End hex.

(** ** [strconv] *)

Module strconv.

(** The two errors of [strconv]: [ErrSyntax] and [ErrRange] (inside a
    [*NumError]). *)
Inductive NumError : Type :=
| ErrSyntax
| ErrRange.

(** The decimal digits of [u], most significant first, in front of [acc];
    [fuel] bounds the number of divisions. *)
Fixpoint utoa (fuel : nat) (u : Z) (acc : list ascii) : list ascii :=
  let acc' := z2b (48 + u mod 10) :: acc in
  match fuel with
  | O => acc'
  | S fuel' => if u <? 10 then acc' else utoa fuel' (u / 10) acc'
  end.

(** [strconv.FormatUint(u, 10)]; a number has no more decimal digits than
    binary ones. *)
Definition FormatUint (u : Z) : list ascii := utoa (Z.to_nat (Z.log2 u)) u [].

(** [strconv.Itoa(i)], for an [int] of 64 bits. *)
Definition Itoa (i : Z) : list ascii :=
  if i <? 0 then "-"%char :: FormatUint (- i) else FormatUint i.

(** The value of a decimal digit. *)
Definition digit (c : ascii) : option Z :=
  let d := b2z c - 48 in
  if (0 <=? d) && (d <=? 9) then Some d else None.

Definition maxUint64 : Z := 2 ^ 64 - 1.

(** The loop of [strconv.ParseUint(s, 10, 64)]: a byte that is not a
    digit is a syntax error; a number that does not fit 64 bits is a range
    error, found before the bytes after it are looked at. *)
Fixpoint parse_uint_loop (s : list ascii) (n : Z) : Z * option NumError :=
  match s with
  | [] => (n, None)
  | c :: s' =>
      match digit c with
      | None => (0, Some ErrSyntax)
      | Some d =>
          if maxUint64 / 10 + 1 <=? n then (maxUint64, Some ErrRange)
          else
            let n1 := n * 10 + d in
            if maxUint64 <? n1 then (maxUint64, Some ErrRange)
            else parse_uint_loop s' n1
      end
  end.

Definition ParseUint (s : list ascii) : Z * option NumError :=
  match s with
  | [] => (0, Some ErrSyntax)
  | _ :: _ => parse_uint_loop s 0
  end.

(** [strconv.ParseInt(s, 10, 0)] with an [int] of 64 bits. *)
Definition ParseInt (s : list ascii) : Z * option NumError :=
  match s with
  | [] => (0, Some ErrSyntax)
  | c :: s' =>
      let neg := bool_decide (c = "-"%char) in
      let s1 := if bool_decide (c = "+"%char) || neg then s' else s in
      match ParseUint s1 with
      | (_, Some ErrSyntax) => (0, Some ErrSyntax)
      | (un, _) =>
          let cutoff := 2 ^ 63 in
          if negb neg && (cutoff <=? un) then (cutoff - 1, Some ErrRange)
          else if neg && (cutoff <? un) then (- cutoff, Some ErrRange)
          else (if neg then - un else un, None)
      end
  end.

(** The loop of the fast path of [Atoi]; [None] is a syntax error. *)
Fixpoint atoi_loop (s : list ascii) (n : Z) : option Z :=
  match s with
  | [] => Some n
  | ch :: s' =>
      match digit ch with
      | None => None
      | Some d => atoi_loop s' (n * 10 + d)
      end
  end.

(** [strconv.Atoi(s)] with an [int] of 64 bits: strings of 1 to 18 bytes
    cannot overflow and are converted directly, the others go through
    [ParseInt]. *)
Definition Atoi (s : list ascii) : Z * option NumError :=
  let sLen := length s in
  if bool_decide (0 < sLen)%nat && bool_decide (sLen < 19)%nat then
    match s with
    | [] => (0, Some ErrSyntax)
    | c :: s' =>
        let signed := bool_decide (c = "-"%char) || bool_decide (c = "+"%char) in
        let s1 := if signed then s' else s in
        if signed && bool_decide (length s1 < 1)%nat then (0, Some ErrSyntax)
        else
          match atoi_loop s1 0 with
          | None => (0, Some ErrSyntax)
          | Some n => (if bool_decide (c = "-"%char) then - n else n, None)
          end
    end
  else ParseInt s.

End strconv.


(** The value a run of digits adds to [n]. *)
Definition decimal (l : list ascii) (n : Z) : Z :=
  fold_left (λ n c, n * 10 + (b2z c - 48)) l n.

Definition is_digit (c : ascii) : Prop := 48 ≤ b2z c ≤ 57.

(** An [int] of 64 bits. *)
Definition is_int (i : Z) : Prop := - 2 ^ 63 ≤ i < 2 ^ 63.

(** ** [math/big] *)

Module big.

(** The method [String] of [big.Int]: the decimal digits, with a minus
    sign in front of a negative number. *)
Definition String (x : Z) : list ascii := strconv.Itoa x.

(** The method [SetString] of [big.Int] with base 10: an optional sign and
    at least one decimal digit, and nothing else; [None] is the result
    [false]. *)
Definition SetString (s : list ascii) : option Z :=
  match s with
  | [] => None
  | c :: s' =>
      let neg := bool_decide (c = "-"%char) in
      let digits := if neg || bool_decide (c = "+"%char) then s' else s in
      if bool_decide (digits = []) then None
      else (λ n, if neg then - n else n) <$> strconv.atoi_loop digits 0
  end.

End big.

(** ** The converters of [common] *)

(** Zero byte. *)
Definition zero_byte : ascii := "000"%char.

(** [dst := [n]byte{}; copy(dst[:n], src)]: the first [n] bytes of [src],
    and zeros where [src] is shorter. *)
Definition copy_array (n : nat) (src : list ascii) : list ascii :=
  take n src ++ replicate (n - length src) zero_byte.

Module converters.

(** What went wrong, by the [fmt.Errorf] that made the error; [name] is
    the argument the message names.  (The text of the messages is not
    modelled.) *)
Inductive ConvError : Type :=
| ErrFormat (name : list ascii)
| ErrBase64 (name : list ascii)
| ErrDecodedLength (name : list ascii)
| ErrChecksum (name : list ascii).

(** [sum := pkComp[0]; for i := 1; i < len(pkComp); i++ { sum += pkComp[i] }]
    on bytes, so modulo 256. *)
Definition byte_sum (pkComp : list ascii) : ascii :=
  match pkComp with
  | x :: rest => fold_left (λ sum y, z2b (b2z sum + b2z y)) rest x
  | [] => zero_byte
  end.

(** [BjjToString]; [bjj] is a [babyjub.PublicKeyComp], 32 bytes. *)
Definition BjjToString (bjj : list ascii) : list ascii :=
  let pkComp := bjj in
  let sum := byte_sum pkComp in
  let bjjSum := pkComp ++ [sum] in
  bytes "cb:" ++ base64.EncodeToString bjjSum.

(** [CbStringToBJJ]: the key (or nil) and the error (or nil). *)
Definition CbStringToBJJ (bjjStr name : list ascii)
  : option (list ascii) * option ConvError :=
  if bool_decide (bjjStr = []) then (None, None)
  else
    let decodedLen := 33%nat in
    let splitted := strings.Split bjjStr (bytes "cb:") in
    if bool_decide (length splitted ≠ 2%nat)
       || bool_decide (length (default [] (splitted !! 1%nat)) ≠ 44%nat)
    then (None, Some (ErrFormat name))
    else
      match base64.DecodeString (default [] (splitted !! 1%nat)) with
      | None => (None, Some (ErrBase64 name))
      | Some decoded =>
          if bool_decide (length decoded ≠ decodedLen)
          then (None, Some (ErrDecodedLength name))
          else
            let bjjBytes := copy_array (decodedLen - 1) (take (decodedLen - 1) decoded) in
            let sum := byte_sum bjjBytes in
            if bool_decide (decoded !! (decodedLen - 1)%nat ≠ Some sum)
            then (None, Some (ErrChecksum name))
            else (Some bjjBytes, None)
      end.

End converters.

(** [StrCbBJJ.UnmarshalText] of [common]: the new value of the receiver
    and the error.  [EmptyBJJComp] is [common.EmptyBJJComp], [s] the value
    of the receiver before the call. *)
Definition StrCbBJJ_UnmarshalText (EmptyBJJComp s text : list ascii)
  : outcome (list ascii * option converters.ConvError) :=
  if bool_decide (length text = 0%nat) then Returns (EmptyBJJComp, None)
  else
    match converters.CbStringToBJJ text [] with
    | (_, Some err) => Returns (s, Some err)
    | (Some bjj, None) => Returns (bjj, None)
    | (None, None) => Panics "invalid memory address or nil pointer dereference"
    end.

(** [StrBigInt.UnmarshalText] (the same in [common] and in [apitypes]):
    the new value of the receiver, or [None] for the error (the receiver is
    then what [SetString] left, which is not specified). *)
Definition StrBigInt_UnmarshalText (text : list ascii) : option Z :=
  big.SetString text.

(** The sum of the values of the bytes. *)
Definition total (l : list ascii) : Z := foldr (λ c s, b2z c + s) 0 l.

Section Idx.

(** [common.Idx], an integer type declared outside these files, with the
    two conversions the converters use: [Idx(i)] of an [int] and [int(idx)]. *)
Context {Idx : Type} (Idx_of_int : Z → Idx) (int_of_Idx : Idx → Z).

(** [QueryAccount]; a nil [AccountIndex] is [None]. *)
Record QueryAccount : Type := mkQueryAccount {
  AccountIndex : option Idx;
  Symbol : list ascii
}.

Inductive IdxError : Type :=
| ErrIdxFormat (name : list ascii)
| ErrIdxNum (err : strconv.NumError).

(** [IdxToCb] *)
Definition IdxToCb (idx : Idx) (tokenSymbol : list ascii) : list ascii :=
  bytes "cb:" ++ tokenSymbol ++ bytes ":" ++ strconv.Itoa (int_of_Idx idx).

(** [StringToIdx] *)
Definition StringToIdx (idxStr name : list ascii) : QueryAccount * option IdxError :=
  if bool_decide (idxStr = []) then (mkQueryAccount None [], None)
  else
    let splitted := strings.Split idxStr (bytes ":") in
    let expectedLen := 3%nat in
    if bool_decide (length splitted ≠ expectedLen)
       || bool_decide (default [] (splitted !! 0%nat) ≠ bytes "cb")
    then (mkQueryAccount None [], Some (ErrIdxFormat name))
    else
      let '(idxInt, err) := strconv.Atoi (default [] (splitted !! 2%nat)) in
      let idx := Idx_of_int idxInt in
      (mkQueryAccount (Some idx) (default [] (splitted !! 1%nat)), ErrIdxNum <$> err).

(** [StrCbIdx] of [common] *)
Record StrCbIdx : Type := mkStrCbIdx {
  StrCbIdx_Idx : Idx;
  TokenSymbol : list ascii
}.

(** [StrCbIdx.UnmarshalText]: the new value of the receiver and the
    error; [s] is the value of the receiver before the call. *)
Definition StrCbIdx_UnmarshalText (s : StrCbIdx) (text : list ascii)
  : StrCbIdx * option IdxError :=
  let withoutCb := strings.TrimPrefix text (bytes "cb:") in
  let splitted := strings.Split withoutCb (bytes ":") in
  let expectedLen := 2%nat in
  if bool_decide (length splitted ≠ expectedLen)
  then (s, Some (ErrIdxFormat text))
  else
    match strconv.Atoi (default [] (splitted !! 1%nat)) with
    | (_, Some err) => (s, Some (ErrIdxNum err))
    | (idxInt, None) =>
        (mkStrCbIdx (Idx_of_int idxInt) (default [] (splitted !! 0%nat)), None)
    end.

End Idx.

Arguments mkQueryAccount {Idx} AccountIndex Symbol.
Arguments AccountIndex {Idx} q.
Arguments Symbol {Idx} q.
Arguments mkStrCbIdx {Idx} StrCbIdx_Idx TokenSymbol.

(** [uint64] as an instance of [Idx]: the conversions from and to [int]
    keep the 64 bits. *)
Definition uint64_of_int (i : Z) : Z := i mod 2 ^ 64.
Definition int_of_uint64 (u : Z) : Z := if u <? 2 ^ 63 then u else u - 2 ^ 64.

(** ** The package [apitypes] *)

Module apitypes.

(** [NewEthSignature]; a nil slice and a nil pointer are [None]. *)
Definition NewEthSignature (signature : option (list ascii)) : option (list ascii) :=
  match signature with
  | None => None
  | Some sig => Some (bytes "0x" ++ hex.EncodeToString sig)
  end.

(** [EthSignature.Value] *)
Definition EthSignature_Value (e : list ascii) : list ascii * option hex.Error :=
  let without0x := strings.TrimPrefix e (bytes "0x") in
  hex.DecodeString without0x.

(** What [Scan] is given: a string, a byte slice (nil or not), or a value
    of another type. *)
Inductive ScanSrc : Type :=
| SrcString (s : list ascii)
| SrcBytes (b : option (list ascii))
| SrcOther.

(** [EthSignature.Scan]: the new value of the receiver and whether there
    is an error; [e] is the receiver before the call.  Dereferencing the
    nil pointer [NewEthSignature] gives for a nil slice panics. *)
Definition EthSignature_Scan (e : list ascii) (src : ScanSrc)
  : outcome (list ascii * bool) :=
  match src with
  | SrcString srcStr =>
      match NewEthSignature (Some srcStr) with
      | Some v => Returns (v, false)
      | None => Panics "invalid memory address or nil pointer dereference"
      end
  | SrcBytes srcBytes =>
      match NewEthSignature srcBytes with
      | Some v => Returns (v, false)
      | None => Panics "invalid memory address or nil pointer dereference"
      end
  | SrcOther => Returns (e, true)
  end.

(** [EthSignature.UnmarshalText]: the receiver becomes the decoded bytes
    themselves. *)
Definition EthSignature_UnmarshalText (e text : list ascii)
  : list ascii * option hex.Error :=
  let without0x := strings.TrimPrefix text (bytes "0x") in
  match hex.DecodeString without0x with
  | (_, Some err) => (e, Some err)
  | (signature, None) => (signature, None)
  end.

(** The two errors of [cbStrToBJJ]. *)
Inductive BJJError : Type :=
| formatErr
| checksumErr.

(** [NewCbBJJ] *)
Definition NewCbBJJ (pkComp : list ascii) : list ascii :=
  let sum := converters.byte_sum pkComp in
  let bjjSum := pkComp ++ [sum] in
  bytes "cb:" ++ base64.EncodeToString bjjSum.

(** [cbStrToBJJ]; [EmptyBJJComp] is [common.EmptyBJJComp]. *)
Definition cbStrToBJJ (EmptyBJJComp s : list ascii) : list ascii * option BJJError :=
  let decodedLen := 33%nat in
  let encodedLen := 44%nat in
  let encoded := strings.TrimPrefix s (bytes "cb:") in
  if bool_decide (length encoded ≠ encodedLen) then (EmptyBJJComp, Some formatErr)
  else
    match base64.DecodeString encoded with
    | None => (EmptyBJJComp, Some formatErr)
    | Some decoded =>
        if bool_decide (length decoded ≠ decodedLen) then (EmptyBJJComp, Some formatErr)
        else
          let bjjBytes := copy_array (decodedLen - 1) (take (decodedLen - 1) decoded) in
          let sum := converters.byte_sum bjjBytes in
          if bool_decide (decoded !! (decodedLen - 1)%nat ≠ Some sum)
          then (EmptyBJJComp, Some checksumErr)
          else (bjjBytes, None)
    end.

(** [StrCbBJJ.UnmarshalText] of [apitypes]: the new value of the receiver
    and the error. *)
Definition StrCbBJJ_UnmarshalText (EmptyBJJComp s text : list ascii)
  : list ascii * option BJJError :=
  if bool_decide (length text = 0%nat) then (EmptyBJJComp, None)
  else
    match cbStrToBJJ EmptyBJJComp text with
    | (_, Some err) => (s, Some err)
    | (bjj, None) => (bjj, None)
    end.


Section CollectedFees.

(** [common.TokenID], the type of the keys, is declared outside these
    files. *)
Context `{Countable TokenID}.

(** [NewBigIntStr]; a nil pointer is [None]. *)
Definition NewBigIntStr (bigInt : option Z) : option (list ascii) :=
  match bigInt with
  | None => None
  | Some x => Some (big.String x)
  end.

(** The body of the loop of [NewCollectedFeesAPI], [c[k] = *NewBigIntStr(v)],
    after which the loop goes on unless it panicked: dereferencing the nil
    pointer [NewBigIntStr] gives for a nil [big.Int] pointer panics. *)
Definition collect (c : outcome (gmap TokenID (list ascii))) (kv : TokenID * option Z)
  : outcome (gmap TokenID (list ascii)) :=
  match c with
  | Panics msg => Panics msg
  | Returns c' =>
      match NewBigIntStr kv.2 with
      | None => Panics "invalid memory address or nil pointer dereference"
      | Some s => Returns (<[kv.1 := s]> c')
      end
  end.

(** [NewCollectedFeesAPI]; [order] is the entries of [m] in the order in
    which [range] visits them, which Go leaves open. *)
Definition NewCollectedFeesAPI (order : list (TokenID * option Z))
  : outcome (gmap TokenID (list ascii)) :=
  foldl collect (Returns ∅) order.

End CollectedFees.

Section ApiIdx.

Context {Idx : Type} (Idx_of_int : Z → Idx).

(** [StrCbIdx.UnmarshalText], where [StrCbIdx] is the index alone: the new value of the receiver and the error. *)
Definition StrCbIdx_UnmarshalText (s : Idx) (text : list ascii)
  : Idx * option IdxError :=
  let withoutCb := strings.TrimPrefix text (bytes "cb:") in
  let splitted := strings.Split withoutCb (bytes ":") in
  let expectedLen := 2%nat in
  if bool_decide (length splitted ≠ expectedLen)
  then (s, Some (ErrIdxFormat text))
  else
    match strconv.Atoi (default [] (splitted !! 1%nat)) with
    | (_, Some err) => (s, Some (ErrIdxNum err))
    | (idxInt, None) => (Idx_of_int idxInt, None)
    end.

End ApiIdx.

End apitypes.

(** ** Sample values *)

(** A key of 32 bytes, the key of 32 zero bytes, and a map of fees. *)
Definition sample_key : list ascii := bytes "0123456789abcdef0123456789abcdef".

Definition sample_empty_key : list ascii := replicate 32 zero_byte.

Definition sample_fees : gmap Z (option Z) := {[ 1 := Some 5; 2 := Some (-7) ]}.

(** * Part II: lemmas *)

(** ** The values *)

Lemma Wrap_ErrDone_not_nil : tracerr.Wrap common.ErrDone ≠ nil.
Proof. discriminate. Qed.

Lemma IsErrDone_Wrap_ErrDone : common.IsErrDone (tracerr.Wrap common.ErrDone) = true.
Proof. reflexivity. Qed.

Lemma IsErrDone_nil : common.IsErrDone nil = false.
Proof. reflexivity. Qed.

(** ** The cases of the two methods *)

Lemma Get_cases ctx i (cm : comm (Client * error)) :
  Get ctx !! i = Some cm →
  (i = 0%nat ∧ cm = RecvDone ctx (NilClient, tracerr.Wrap common.ErrDone)) ∨
  (i = 1%nat ∧ cm = RecvPool (λ serverProof, (serverProof, nil))).
Proof.
  destruct i as [|[|i]]; simpl; intros H; inversion H; auto.
Qed.

Lemma Add_cases ctx h i (cm : comm unit) :
  Add ctx h !! i = Some cm →
  (i = 0%nat ∧ cm = SendPool h tt) ∨ (i = 1%nat ∧ cm = RecvDone ctx tt).
Proof.
  destruct i as [|[|i]]; simpl; intros H; inversion H; auto.
Qed.

Lemma ready_proceed {A} cancelled p (s : select A) i x :
  (i, x) ∈ ready cancelled p s ↔ ∃ c, s !! i = Some c ∧ proceed cancelled p c = Some x.
Proof.
  unfold ready. rewrite list_elem_of_omap. split.
  - intros ([j c] & Hin & Hf).
    apply elem_of_lookup_imap in Hin as (k & c' & [= -> ->] & Hl).
    simpl in Hf. destruct (proceed cancelled p c') eqn:Hp; simplify_eq/=. eauto.
  - intros (c & Hl & Hp). exists (i, c). split.
    + apply elem_of_lookup_imap. eauto.
    + simpl. by rewrite Hp.
Qed.

(** ** Steps *)

Lemma step_returning w ev w' rs g r :
  step ev w = Some (w', rs) → (g, r) ∈ rs → returning w g r w'.
Proof.
  intros Hs Hin.
  destruct ev as [g0 ctx|g0 ctx h|g0 ctx h|g0 i|gs gr|id|h]; simpl in Hs;
    unfold enter in Hs.
  1-3: repeat case_match; simplify_option_eq; by apply elem_of_nil in Hin.
  - destruct (waiting w !! g0) as [c|] eqn:Hw; simpl in Hs; [|done].
    destruct (call_select c !! i) as [cm|] eqn:Hc; simpl in Hs; [|done].
    destruct (proceed (cancelled w) (pp w) cm) as [[[p' e] r']|] eqn:Hp;
      simpl in Hs; [|done].
    injection Hs as <- <-.
    apply list_elem_of_singleton in Hin. injection Hin as -> ->.
    destruct c as [ctx|ctx h rel]; destruct i as [|[|i]]; simplify_eq/=.
    + destruct (is_done (cancelled w) ctx) eqn:Hd; simplify_eq.
      by eapply ret_get_done.
    + destruct (chan_buf (pool (pp w))) as [|v rest] eqn:Hb; simplify_eq.
      by eapply ret_get_recv.
    + destruct (Z.ltb_spec (Z.of_nat (length (chan_buf (pool (pp w)))))
                  (chan_cap (pool (pp w)))); simplify_eq.
      by eapply ret_add_send.
    + destruct (is_done (cancelled w) ctx) eqn:Hd; simplify_eq.
      by eapply ret_add_done.
  - destruct (waiting w !! gs) as [cs|] eqn:Hws; simpl in Hs; [|done].
    destruct (waiting w !! gr) as [cr|] eqn:Hwr; simpl in Hs; [|done].
    destruct cs as [ctx|ctx h rel]; simpl in Hs; [done|].
    destruct cr as [ctx'|ctx' h' rel']; simpl in Hs; [|done].
    destruct (chan_buf (pool (pp w))) eqn:Hb; [|done].
    injection Hs as <- <-.
    apply elem_of_cons in Hin as [Hin|Hin]; [|apply list_elem_of_singleton in Hin];
      injection Hin as -> ->.
    + by eapply ret_handoff_send.
    + by eapply ret_handoff_recv.
  - injection Hs as <- <-. by apply elem_of_nil in Hin.
  - case_decide; [|done]. injection Hs as <- <-. by apply elem_of_nil in Hin.
Qed.

Lemma returning_step w g r w' :
  returning w g r w' → ∃ ev rs, step ev w = Some (w', rs) ∧ (g, r) ∈ rs.
Proof.
  destruct 1 as [ctx Hw Hd|ctx v rest Hw Hb|ctx h rel Hw Hlt|ctx h rel Hw Hd
                  |g' ctx h rel ctx' Hw Hw' Hb|g' ctx h rel ctx' Hw' Hw Hb];
    unfold available in *.
  - exists (Proceed g 0), [(g, GetRet (NilClient, tracerr.Wrap common.ErrDone))].
    simpl. rewrite Hw. simpl. rewrite Hd. simpl. split; [done|]. apply list_elem_of_here.
  - exists (Proceed g 1), [(g, GetRet (v, nil))].
    simpl. rewrite Hw. simpl. rewrite Hb. simpl. split; [done|]. apply list_elem_of_here.
  - exists (Proceed g 0), [(g, AddRet tt)].
    simpl. rewrite Hw. simpl.
    destruct (Z.ltb_spec (Z.of_nat (length (chan_buf (pool (pp w)))))
                (chan_cap (pool (pp w)))); [|lia].
    simpl. split; [done|]. apply list_elem_of_here.
  - exists (Proceed g 1), [(g, AddRet tt)].
    simpl. rewrite Hw. simpl. rewrite Hd. simpl. split; [done|]. apply list_elem_of_here.
  - exists (Handoff g g'), [(g, AddRet tt); (g', GetRet (h, nil))].
    simpl. rewrite Hw, Hw'. simpl. rewrite Hb. split; [done|]. apply list_elem_of_here.
  - exists (Handoff g' g), [(g', AddRet tt); (g, GetRet (h, nil))].
    simpl. rewrite Hw, Hw'. simpl. rewrite Hb. split; [done|].
    apply list_elem_of_further, list_elem_of_here.
Qed.

Lemma step_transition ev w w' rs :
  step ev w = Some (w', rs) → transition w ev w'.
Proof.
  intros Hs.
  destruct ev as [g0 ctx|g0 ctx h|g0 ctx h|g0 i|gs gr|id|h].
  - simpl in Hs. unfold enter in Hs.
    destruct (waiting w !! g0) eqn:Hw; simplify_eq/=. by apply t_call_get.
  - simpl in Hs. unfold enter in Hs.
    destruct (waiting w !! g0) eqn:Hw; simplify_eq/=. by apply t_call_add.
  - simpl in Hs. unfold enter in Hs. case_decide; [|done].
    destruct (waiting w !! g0) eqn:Hw; simplify_eq/=. by apply t_release.
  - assert (∃ r, rs = [(g0, r)]) as [r ->].
    { simpl in Hs. destruct (waiting w !! g0); simpl in Hs; [|done].
      destruct (call_select _ !! i); simpl in Hs; [|done].
      destruct (proceed _ _ _); simpl in Hs; [|done]. injection Hs as <- <-. eauto. }
    eapply t_proceed, step_returning; [done|]. apply list_elem_of_here.
  - assert (∃ r rs', rs = (gs, r) :: rs') as (r & rs' & ->).
    { simpl in Hs. destruct (waiting w !! gs); simpl in Hs; [|done].
      destruct (waiting w !! gr); simpl in Hs; [|done].
      destruct (send_case _); simpl in Hs; [|done].
      destruct (recv_case _); simpl in Hs; [|done].
      destruct (chan_buf _); [|done]. injection Hs as <- <-. eauto. }
    eapply t_handoff, step_returning; [done|]. apply list_elem_of_here.
  - simpl in Hs. injection Hs as <- <-. apply t_cancel.
  - simpl in Hs. case_decide; [|done]. injection Hs as <- <-. by apply t_discard.
Qed.

(** A step that does not make a goroutine return leaves it inside its
    call. *)
Lemma step_still_waiting w ev w' rs g c :
  waiting w !! g = Some c → step ev w = Some (w', rs) → g ∉ rs.*1 →
  waiting w' !! g = Some c.
Proof.
  intros Hw Hs Hn.
  destruct ev as [g0 ctx|g0 ctx h|g0 ctx h|g0 i|gs gr|id|h]; simpl in Hs;
    unfold enter in Hs.
  - destruct (waiting w !! g0) eqn:Hw0; simplify_eq/=.
    rewrite lookup_insert_ne; [done|congruence].
  - destruct (waiting w !! g0) eqn:Hw0; simplify_eq/=.
    rewrite lookup_insert_ne; [done|congruence].
  - case_decide; [|done]. destruct (waiting w !! g0) eqn:Hw0; simplify_eq/=.
    rewrite lookup_insert_ne; [done|congruence].
  - destruct (waiting w !! g0) as [c0|] eqn:Hw0; simpl in Hs; [|done].
    destruct (call_select c0 !! i) as [cm|]; simpl in Hs; [|done].
    destruct (proceed (cancelled w) (pp w) cm) as [[[p' e] r']|]; simpl in Hs; [|done].
    injection Hs as <- <-. simpl in Hn.
    assert (g0 ≠ g) as Hne by (intros ->; apply Hn, list_elem_of_here).
    destruct e; simpl; by rewrite lookup_delete_ne.
  - destruct (waiting w !! gs) as [cs|] eqn:Hws; simpl in Hs; [|done].
    destruct (waiting w !! gr) as [cr|] eqn:Hwr; simpl in Hs; [|done].
    destruct (send_case (call_select cs)); simpl in Hs; [|done].
    destruct (recv_case (call_select cr)); simpl in Hs; [|done].
    destruct (chan_buf (pool (pp w))); [|done].
    injection Hs as <- <-. simpl in Hn.
    assert (gs ≠ g) as Hne by (intros ->; apply Hn, list_elem_of_here).
    assert (gr ≠ g) as Hne'
      by (intros ->; apply Hn, list_elem_of_further, list_elem_of_here).
    simpl. by rewrite !lookup_delete_ne.
  - by injection Hs as <- <-.
  - case_decide; [|done]. by injection Hs as <- <-.
Qed.

Lemma settle_pp g c e p' w : pp (settle g c e p' w) = p'.
Proof. by destruct e. Qed.

(** The ways a call can return alone are the steps of its goroutine. *)
Lemma alone_step w g c p' r :
  waiting w !! g = Some c →
  (p', r) ∈ alone (cancelled w) (call_select c) (pp w) ↔
  ∃ i w', step (Proceed g i) w = Some (w', [(g, r)]) ∧ pp w' = p'.
Proof.
  intros Hw. unfold alone. rewrite list_elem_of_fmap. split.
  - intros ([i [[p1 e] r1]] & [= -> ->] & (cm & Hl & Hp)%ready_proceed).
    exists i. eexists. simpl. rewrite Hw. simpl. rewrite Hl. simpl. rewrite Hp. simpl.
    split; [done|]. apply settle_pp.
  - intros (i & w' & Hs & <-). simpl in Hs. rewrite Hw in Hs. simpl in Hs.
    destruct (call_select c !! i) as [cm|] eqn:Hl; simpl in Hs; [|done].
    destruct (proceed (cancelled w) (pp w) cm) as [[[p1 e] r1]|] eqn:Hp;
      simpl in Hs; [|done].
    injection Hs as <- <-. exists (i, (p1, e, r1)). split.
    + simpl. by rewrite settle_pp.
    + apply ready_proceed. eauto.
Qed.

(** ** Runs *)

(** An invariant of the steps holds after every run. *)
Lemma run_invariant (P : World → Prop) :
  (∀ ev w w', P w → transition w ev w' → P w') →
  ∀ tr w w' rs, P w → run tr w = Some (w', rs) → P w'.
Proof.
  intros Hstep tr. induction tr as [|ev tr IH]; intros w w' rs HP Hr; simpl in Hr.
  - by injection Hr as <- <-.
  - destruct (step ev w) as [[w1 rs1]|] eqn:Hs; simpl in Hr; [|done].
    destruct (run tr w1) as [[w2 rs2]|] eqn:Hr2; simpl in Hr; [|done].
    injection Hr as <- <-.
    eapply IH; [|done]. eapply Hstep; [done|]. by eapply step_transition.
Qed.


Lemma run_observed (P : World → Prop) (ok : event → Prop) (Q : ret → Prop) :
  (∀ ev w w', P w → ok ev → transition w ev w' → P w') →
  (∀ w g r w', P w → returning w g r w' → Q r) →
  ∀ tr w w' rs,
    P w → Forall ok tr → run tr w = Some (w', rs) →
    ∀ g r, (g, r) ∈ rs → Q r.
Proof.
  intros Hstep Hret tr.
  induction tr as [|ev tr IH]; intros w w' rs HP Hok Hr g r Hin; simpl in Hr.
  - injection Hr as <- <-. by apply elem_of_nil in Hin.
  - apply Forall_cons in Hok as [Hok Hoks].
    destruct (step ev w) as [[w1 rs1]|] eqn:Hs; simpl in Hr; [|done].
    destruct (run tr w1) as [[w2 rs2]|] eqn:Hr2; simpl in Hr; [|done].
    injection Hr as <- <-. apply elem_of_app in Hin as [Hin|Hin].
    + eapply Hret; [done|]. by eapply step_returning.
    + eapply (IH w1); [|done..]. eapply Hstep; [done..|]. by eapply step_transition.
Qed.

(** ** Lists of handles *)

Ltac perm_front := simpl; rewrite <-?Permutation_middle, ?app_nil_r; simpl.

Lemma remove1_perm h l : h ∈ l → l ≡ₚ h :: remove1 h l.
Proof.
  induction l as [|x l IH]; intros Hin; [by apply elem_of_nil in Hin|].
  simpl. case_decide as Hx; [by subst|].
  apply elem_of_cons in Hin as [->|Hin]; [done|].
  rewrite (IH Hin) at 1. apply perm_swap.
Qed.

Lemma remove1_length h l : h ∈ l → length l = S (length (remove1 h l)).
Proof. intros Hin. by rewrite (remove1_perm h l Hin) at 1. Qed.

Lemma handles_insert f (m : gmap nat call) g c :
  m !! g = None → handles f (<[g := c]> m) ≡ₚ option_list (f c) ++ handles f m.
Proof.
  intros Hm. unfold handles. rewrite (map_to_list_insert m g c Hm). simpl.
  by destruct (f c).
Qed.

Lemma handles_delete f (m : gmap nat call) g c :
  m !! g = Some c → handles f m ≡ₚ option_list (f c) ++ handles f (delete g m).
Proof.
  intros Hm. unfold handles. rewrite <-(map_to_list_delete m g c Hm). simpl.
  by destruct (f c).
Qed.

Lemma handles_elem f (m : gmap nat call) g c h :
  m !! g = Some c → f c = Some h → h ∈ handles f m.
Proof.
  intros Hm Hf. rewrite (handles_delete f m g c Hm), Hf. apply list_elem_of_here.
Qed.

Lemma handoff_distinct (m : gmap nat call) g g' ctx h rel ctx' :
  m !! g = Some (AddCall ctx h rel) → m !! g' = Some (GetCall ctx') →
  g ≠ g' ∧ delete g m !! g' = Some (GetCall ctx') ∧
  delete g' m !! g = Some (AddCall ctx h rel).
Proof.
  intros Hg Hg'. assert (g ≠ g') as Hne by (intros ->; congruence).
  by rewrite !lookup_delete_ne.
Qed.

Lemma handles_handoff f (m : gmap nat call) g g' ctx h rel ctx' :
  f (GetCall ctx') = None →
  m !! g = Some (AddCall ctx h rel) → m !! g' = Some (GetCall ctx') →
  handles f m ≡ₚ option_list (f (AddCall ctx h rel)) ++ handles f (delete g' (delete g m)).
Proof.
  intros Hf Hg Hg'. destruct (handoff_distinct m g g' ctx h rel ctx' Hg Hg') as (? & Hd' & Hd).
  rewrite (handles_delete f m g _ Hg). f_equiv.
  rewrite (handles_delete f _ g' _ Hd'). by rewrite Hf.
Qed.



(** ** Invariants of the steps *)

Lemma transition_capacity ev w w' : transition w ev w' → capacity w' = capacity w.
Proof.
  destruct 1 as [| | |g i r w' Hr|gs gr r w' Hr| |]; try done; by destruct Hr.
Qed.

Lemma transition_bounded ev w w' :
  transition w ev w' →
  Z.of_nat (length (available w)) ≤ capacity w →
  Z.of_nat (length (available w')) ≤ capacity w'.
Proof.
  unfold capacity, available.
  destruct 1 as [| | |g i r w' Hr|gs gr r w' Hr| |]; try done;
    destruct Hr; unfold available in *; simpl; try done;
    repeat match goal with H : chan_buf _ = _ |- _ => rewrite H in * end;
    rewrite ?length_app; simpl in *; lia.
Qed.

Lemma transition_history ev w w' :
  transition w ev w' →
  sent w = recvd w ++ available w →
  sent w' = recvd w' ++ available w'.
Proof.
  unfold available.
  destruct 1 as [| | |g i r w' Hr|gs gr r w' Hr| |]; try done;
    destruct Hr; unfold available in *; simpl; try done; intros ->;
    repeat match goal with H : chan_buf _ = _ |- _ => rewrite H in * end;
    by rewrite <-?(assoc_L (++)), ?app_nil_r.
Qed.

Lemma returning_conservation w g r w' :
  returning w g r w' →
  (length (available w) + length (checked_out w) + discarded w = seeded w)%nat →
  (length (available w') + length (checked_out w') + discarded w' = seeded w')%nat.
Proof.
  unfold checked_out, releasing.
  destruct 1 as [ctx Hw Hd|ctx v rest Hw Hb|ctx h rel Hw Hlt|ctx h rel Hw Hd
                |g' ctx h rel ctx' Hw Hw' Hb|g' ctx h rel ctx' Hw' Hw Hb];
    unfold available in *; simpl.
  - by rewrite (handles_delete release_handle _ _ _ Hw).
  - rewrite (handles_delete release_handle _ _ _ Hw), Hb. simpl.
    rewrite !length_app. simpl. lia.
  - rewrite (handles_delete release_handle _ _ _ Hw).
    destruct rel; simpl; rewrite !length_app; simpl; lia.
  - rewrite (handles_delete release_handle _ _ _ Hw).
    destruct rel; simpl; rewrite !length_app; simpl; lia.
  - rewrite (handles_handoff release_handle _ _ _ _ _ _ _ eq_refl Hw Hw').
    destruct rel; simpl; rewrite !length_app; simpl; lia.
  - rewrite (handles_handoff release_handle _ _ _ _ _ _ _ eq_refl Hw' Hw).
    destruct rel; simpl; rewrite !length_app; simpl; lia.
Qed.

Lemma transition_conservation ev w w' :
  transition w ev w' →
  (length (available w) + length (checked_out w) + discarded w = seeded w)%nat →
  (length (available w') + length (checked_out w') + discarded w' = seeded w')%nat.
Proof.
  destruct 1 as [g ctx Hw|g ctx h Hw|g ctx h Hw Hin|g i r w' Hr|gs gr r w' Hr|id|h Hin];
    try (by eapply returning_conservation);
    unfold checked_out, releasing, available; simpl.
  - by rewrite (handles_insert _ _ g _ Hw).
  - by rewrite (handles_insert _ _ g _ Hw).
  - rewrite (handles_insert _ _ g _ Hw). simpl.
    rewrite !length_app, (remove1_length h _ Hin). simpl. lia.
  - done.
  - rewrite !length_app, (remove1_length h _ Hin). simpl. lia.
Qed.

Lemma returning_resident w g r w' :
  returning w g r w' → ∃ k, resident w ≡ₚ k ++ resident w'.
Proof.
  unfold resident, inflight.
  destruct 1 as [ctx Hw Hd|ctx v rest Hw Hb|ctx h rel Hw Hlt|ctx h rel Hw Hd
                |g' ctx h rel ctx' Hw Hw' Hb|g' ctx h rel ctx' Hw' Hw Hb];
    unfold available in *; simpl.
  - exists []. by rewrite (handles_delete add_handle _ _ _ Hw).
  - exists []. rewrite (handles_delete add_handle _ _ _ Hw), Hb. by perm_front.
  - exists []. rewrite (handles_delete add_handle _ _ _ Hw).
    by perm_front.
  - destruct rel; [exists []|exists [h]];
      rewrite (handles_delete add_handle _ _ _ Hw); by perm_front.
  - exists []. rewrite (handles_handoff add_handle _ _ _ _ _ _ _ eq_refl Hw Hw').
    by perm_front.
  - exists []. rewrite (handles_handoff add_handle _ _ _ _ _ _ _ eq_refl Hw' Hw).
    by perm_front.
Qed.


Lemma transition_resident_elem ev w w' x :
  transition w ev w' → x ∈ resident w' →
  x ∈ resident w ∨ ∃ g ctx, ev = CallAdd g ctx x.
Proof.
  destruct 1 as [g ctx Hw|g ctx h Hw|g ctx h Hw Hin|g i r w' Hr|gs gr r w' Hr|id|h Hin].
  - unfold resident, inflight. simpl. rewrite (handles_insert _ _ g _ Hw). auto.
  - unfold resident, inflight. simpl. rewrite (handles_insert _ _ g _ Hw). simpl.
    rewrite <-!Permutation_middle. intros [->|Hx]%elem_of_cons; eauto.
  - unfold resident, inflight. simpl. rewrite (handles_insert _ _ g _ Hw).
    pose proof (remove1_perm h _ Hin) as Hp. set (o := remove1 h (out w)) in *.
    rewrite Hp. perm_front. auto.
  - destruct (returning_resident _ _ _ _ Hr) as [k ->]. left. apply elem_of_app. auto.
  - destruct (returning_resident _ _ _ _ Hr) as [k ->]. left. apply elem_of_app. auto.
  - auto.
  - unfold resident. simpl.
    pose proof (remove1_perm h _ Hin) as Hp. set (o := remove1 h (out w)) in *.
    rewrite Hp. perm_front. intros Hx. left. by apply list_elem_of_further.
Qed.


(** ** Worlds reached from a new pool *)

Lemma make_chan_cases size :
  make_chan size
  = if (size <? 0) || (maxChanSize <? size)
    then Panics "makechan: size out of range"
    else Returns (mkchan size []).
Proof.
  unfold make_chan, maxChanSize, maxAlloc, hchanSize, elem_size. cbv zeta.
  change ((2 ^ 48 - 96) / 16) with 17592186044410.
  change (2 ^ 48 - 96) with 281474976710560.
  change (2 ^ 64) with 18446744073709551616.
  destruct (Z.leb_spec 18446744073709551616 (16 * size));
    destruct (Z.ltb_spec 281474976710560 (16 * size));
    destruct (Z.ltb_spec size 0);
    destruct (Z.ltb_spec 17592186044410 size); simpl; try done; lia.
Qed.

Lemma NewProversPool_Returns n p :
  NewProversPool n = Returns p → 0 ≤ n ∧ p = mkProversPool (mkchan n []).
Proof.
  unfold NewProversPool. rewrite make_chan_cases.
  destruct (Z.ltb_spec n 0); [done|].
  destruct (maxChanSize <? n); [done|]. simpl. intros [= <-]. done.
Qed.

Section Reached.

Context (n : Z) (p : ProversPool).
Hypothesis new_pool : NewProversPool n = Returns p.

Lemma reached_bounded tr w rs :
  run tr (start p) = Some (w, rs) →
  Z.of_nat (length (available w)) ≤ capacity w ∧ capacity w = n.
Proof.
  destruct (NewProversPool_Returns n p new_pool) as [Hn ->].
  apply (run_invariant
           (λ w, Z.of_nat (length (available w)) ≤ capacity w ∧ capacity w = n)).
  - intros ev w1 w2 [Hb Hc] Ht. split.
    + by eapply transition_bounded.
    + by rewrite (transition_capacity _ _ _ Ht).
  - split; [exact Hn|done].
Qed.

Lemma reached_history tr w rs :
  run tr (start p) = Some (w, rs) →
  sent w = recvd w ++ available w.
Proof.
  destruct (NewProversPool_Returns n p new_pool) as [Hn ->].
  apply (run_invariant (λ w, sent w = recvd w ++ available w)); [|done].
  intros ev w1 w2 H Ht. by eapply transition_history.
Qed.

Lemma reached_conservation tr w rs :
  run tr (start p) = Some (w, rs) →
  (length (available w) + length (checked_out w) + discarded w = seeded w)%nat.
Proof.
  destruct (NewProversPool_Returns n p new_pool) as [Hn ->].
  apply (run_invariant
           (λ w, (length (available w) + length (checked_out w) + discarded w
                  = seeded w)%nat)); [|done].
  intros ev w1 w2 H Ht. by eapply transition_conservation.
Qed.


End Reached.

(** ** When a call is blocked *)

Lemma Blocked_returning w g :
  Blocked w g ↔ is_Some (waiting w !! g) ∧ ∀ r w', ¬ returning w g r w'.
Proof.
  unfold Blocked. split; intros [Hw Hb]; (split; [done|]).
  - intros r w' (ev & rs & Hs & Hin)%returning_step.
    apply (Hb _ _ _ Hs). apply list_elem_of_fmap. by exists (g, r).
  - intros ev w' rs Hs ([g' r] & -> & Hin)%list_elem_of_fmap.
    eapply Hb, step_returning; done.
Qed.

Lemma Get_blocked w g ctx :
  waiting w !! g = Some (GetCall ctx) →
  Blocked w g ↔
    available w = [] ∧ is_done (cancelled w) ctx = false ∧ ¬ add_waiting w.
Proof.
  intros Hw. rewrite Blocked_returning. split.
  - intros [_ Hb]. split; [|split].
    + destruct (available w) as [|v rest] eqn:Hb'; [done|].
      exfalso. eapply Hb. by eapply ret_get_recv.
    + destruct (is_done (cancelled w) ctx) eqn:Hd; [|done].
      exfalso. eapply Hb. by eapply ret_get_done.
    + intros (g' & ctx' & h & rel & Hw').
      destruct (available w) as [|v rest] eqn:Hb'.
      * eapply Hb. by eapply ret_handoff_recv.
      * eapply Hb. by eapply ret_get_recv.
  - intros (Hb & Hd & Hna). split; [by eexists|].
    intros r w' Hr. inversion Hr; simplify_eq; try congruence.
    apply Hna. by repeat eexists.
Qed.

Lemma Add_blocked w g ctx h rel :
  waiting w !! g = Some (AddCall ctx h rel) →
  Blocked w g ↔
    ¬ Z.of_nat (length (available w)) < capacity w ∧
    is_done (cancelled w) ctx = false ∧
    ¬ (available w = [] ∧ get_waiting w).
Proof.
  intros Hw. rewrite Blocked_returning. split.
  - intros [_ Hb]. split; [|split].
    + intros Hlt. eapply Hb. by eapply ret_add_send.
    + destruct (is_done (cancelled w) ctx) eqn:Hd; [|done].
      exfalso. eapply Hb. by eapply ret_add_done.
    + intros [Hb' (g' & ctx' & Hw')]. eapply Hb. by eapply ret_handoff_send.
  - intros (Hb & Hd & Hng). split; [by eexists|].
    intros r w' Hr. inversion Hr; simplify_eq; try congruence.
    + by apply Hb.
    + apply Hng. split; [done|]. by repeat eexists.
Qed.

(** ** One goroutine at a time *)

Lemma alone_Add cancelled ctx h n buf :
  is_done cancelled ctx = false →
  Z.of_nat (length buf) < n →
  alone cancelled (Add ctx h) (mkProversPool (mkchan n buf))
  = [(mkProversPool (mkchan n (buf ++ [h])), tt)].
Proof.
  intros Hd Hlt. unfold alone, ready. simpl. rewrite Hd.
  destruct (Z.ltb_spec (Z.of_nat (length buf)) n); [done|lia].
Qed.

Lemma alone_Get cancelled ctx h n buf :
  is_done cancelled ctx = false →
  alone cancelled (Get ctx) (mkProversPool (mkchan n (h :: buf)))
  = [(mkProversPool (mkchan n buf), (h, nil))].
Proof. intros Hd. unfold alone, ready. simpl. by rewrite Hd. Qed.

Lemma add_each_fits cancelled ctx hs n buf :
  is_done cancelled ctx = false →
  Z.of_nat (length buf + length hs) ≤ n →
  add_each cancelled ctx hs (mkProversPool (mkchan n buf))
  = [mkProversPool (mkchan n (buf ++ hs))].
Proof.
  intros Hd. revert buf. induction hs as [|h hs IH]; intros buf Hle; simpl.
  - by rewrite app_nil_r.
  - rewrite alone_Add by (done || simpl in Hle; lia). simpl.
    rewrite IH, app_nil_r, <-(assoc_L (++)); [done|].
    rewrite length_app. simpl in *. lia.
Qed.

Lemma get_times_queue cancelled ctx hs n buf :
  is_done cancelled ctx = false →
  get_times cancelled ctx (length hs) (mkProversPool (mkchan n (hs ++ buf)))
  = [(mkProversPool (mkchan n buf), (λ h, (h, nil)) <$> hs)].
Proof.
  intros Hd. induction hs as [|h hs IH]; simpl; [done|].
  rewrite alone_Get by done. simpl. by rewrite IH.
Qed.

(** ** The scenarios *)

Lemma run_two_workers :
  run two_workers (start (mkProversPool (mkchan 2 [])))
  = Some (after_two_workers, two_workers_returns).
Proof. vm_compute. reflexivity. Qed.


Lemma run_seed_while_checked_out :
  run seed_while_checked_out (start (mkProversPool (mkchan 1 [])))
  = Some (after_seed_while_checked_out,
          [ (0%nat, AddRet tt); (1%nat, GetRet (ClientAt 1, nil)); (0%nat, AddRet tt) ]).
Proof. vm_compute. reflexivity. Qed.

Lemma run_third_seed :
  run third_seed (start (mkProversPool (mkchan 1 [])))
  = Some (inside_third_seed,
          [ (0%nat, AddRet tt); (1%nat, GetRet (ClientAt 1, nil)); (0%nat, AddRet tt) ]).
Proof. vm_compute. reflexivity. Qed.

Lemma run_get_after_cancel :
  run get_after_cancel (start (mkProversPool (mkchan 1 [])))
  = Some (inside_get_after_cancel, [(0%nat, AddRet tt)]).
Proof. vm_compute. reflexivity. Qed.

(** The two ways that call can return. *)
Lemma get_after_cancel_done :
  step (Proceed 1 0) inside_get_after_cancel
  = Some (mkWorld (mkProversPool (mkchan 1 [ClientAt 1])) [1%nat] ∅ []
            [ClientAt 1] [] 1 0,
          [(1%nat, GetRet (NilClient, tracerr.Wrap common.ErrDone))]).
Proof. vm_compute. reflexivity. Qed.

Lemma get_after_cancel_recv :
  step (Proceed 1 1) inside_get_after_cancel
  = Some (mkWorld (mkProversPool (mkchan 1 [])) [1%nat] ∅ [ClientAt 1]
            [ClientAt 1] [ClientAt 1] 1 0,
          [(1%nat, GetRet (ClientAt 1, nil))]).
Proof. vm_compute. reflexivity. Qed.

Lemma run_add_after_cancel :
  run add_after_cancel (start (mkProversPool (mkchan 1 [])))
  = Some (inside_add_after_cancel, [(0%nat, AddRet tt)]).
Proof. vm_compute. reflexivity. Qed.


(** * Part III: the properties *)

(** ** Construction *)

(** C10, as stated, fails: a capacity of zero or more is not enough for
    [NewProversPool] to return a pool.  A buffer of [2 ^ 62] interface
    values does not fit the address space ([16 * 2 ^ 62] overflows 64
    bits), and [make] panics. *)
Lemma NewProversPool_panics_on_large_capacity :
  ¬ (∀ n, 0 ≤ n → - 2 ^ 63 ≤ n < 2 ^ 63 →
          ∃ p, NewProversPool n = Returns p ∧ chan_buf (pool p) = []).
Proof.
  intros H. destruct (H (2 ^ 62)) as (p & Hp & _); [lia|lia|].
  discriminate Hp.
Qed.

(** C10, amended.  [NewProversPool] panics exactly when the capacity is
    negative or more than the runtime gives a channel of clients,
    [maxChanSize], which is [2 ^ 44 - 6] on linux/amd64; on a capacity from
    zero to that bound it returns a pool of that capacity with nothing
    available. *)
Theorem NewProversPool_spec (maxServerProofs : Z) :
  maxChanSize = 2 ^ 44 - 6 ∧
  match NewProversPool maxServerProofs with
  | Panics msg =>
      (maxServerProofs < 0 ∨ maxChanSize < maxServerProofs) ∧
      msg = "makechan: size out of range"%string
  | Returns p =>
      0 ≤ maxServerProofs ≤ maxChanSize ∧ chan_buf (pool p) = [] ∧
      chan_cap (pool p) = maxServerProofs
  end.
Proof.
  split; [reflexivity|].
  unfold NewProversPool. rewrite make_chan_cases.
  destruct (Z.ltb_spec maxServerProofs 0); simpl; [split; [lia|done]|].
  destruct (Z.ltb_spec maxChanSize maxServerProofs); simpl.
  - split; [lia|done].
  - split; [lia|done].
Qed.

(** ** The buffer *)

(** C8.  After any run of calls, returns, cancellations and discards on a
    pool made with capacity [n], the handles available are at most [n], and
    the capacity is still [n]. *)
Theorem available_within_capacity n p tr w rs :
  NewProversPool n = Returns p →
  run tr (start p) = Some (w, rs) →
  Z.of_nat (length (available w)) ≤ n ∧ capacity w = n.
Proof.
  intros Hp Hr. destruct (reached_bounded n p Hp tr w rs Hr) as [Hb Hc].
  split; [by rewrite <-Hc|done].
Qed.

Lemma available_within_capacity_witness :
  Z.of_nat (length (available after_two_workers)) ≤ 2 ∧
  capacity after_two_workers = 2.
Proof.
  exact (available_within_capacity 2 (mkProversPool (mkchan 2 [])) two_workers
           after_two_workers two_workers_returns eq_refl run_two_workers).
Defined.

(** C7.  With a context that is not cancelled and no other goroutine, adding
    [k] handles to a new pool of capacity at least [k] and then calling
    [Get] [k] times has exactly one outcome: no call blocks, the calls to
    [Get] return the handles in the order they were added, each with a nil
    error, and the pool is empty again. *)
Theorem sequential_fifo cancelled ctx n p (hs : list Client) :
  is_done cancelled ctx = false →
  NewProversPool n = Returns p →
  Z.of_nat (length hs) ≤ n →
  (p' ← add_each cancelled ctx hs p; get_times cancelled ctx (length hs) p')
  = [(p, (λ h, (h, nil)) <$> hs)].
Proof.
  intros Hd [Hn ->]%NewProversPool_Returns Hle.
  rewrite add_each_fits by (done || simpl; lia). simpl.
  rewrite <-(app_nil_r hs) at 2. rewrite get_times_queue by done.
  by rewrite app_nil_r.
Qed.

Lemma sequential_fifo_witness :
  (p' ← add_each [7%nat] (WithCancel 1) [ClientAt 1; ClientAt 2; ClientAt 1]
          (mkProversPool (mkchan 3 []));
   get_times [7%nat] (WithCancel 1) 3 p')
  = [(mkProversPool (mkchan 3 []),
      [(ClientAt 1, nil); (ClientAt 2, nil); (ClientAt 1, nil)])].
Proof.
  apply (sequential_fifo [7%nat] (WithCancel 1) 3 (mkProversPool (mkchan 3 []))
           [ClientAt 1; ClientAt 2; ClientAt 1]);
    [reflexivity | reflexivity | simpl; lia].
Defined.

(** ** Exclusive use *)




(** ** Counting handles *)

(** C2, as stated, fails: the capacity bounds the handles available, not
    the handles available and checked out together. *)
Lemma checked_out_handles_take_no_room :
  ¬ (∀ n p tr w rs,
       NewProversPool n = Returns p →
       run tr (start p) = Some (w, rs) →
       Z.of_nat (length (available w) + length (checked_out w)) ≤ n).
Proof.
  intros H.
  pose proof (H 1 _ _ _ _ eq_refl run_seed_while_checked_out) as Hle.
  vm_compute in Hle. by apply Hle.
Qed.

(** C2, amended.  In every world reached from a new pool of capacity [n]:
    the handles available plus the handles checked out are the handles
    seeded minus the handles discarded; the handles available are at most
    [n]; and an [Add] is blocked exactly when [n] handles are available
    (those checked out do not count), its context is not cancelled and, for
    a pool of capacity 0, no [Get] is waiting to take the handle. *)
Theorem conservation_and_capacity n p tr w rs :
  NewProversPool n = Returns p →
  run tr (start p) = Some (w, rs) →
  (length (available w) + length (checked_out w) + discarded w = seeded w)%nat ∧
  Z.of_nat (length (available w)) ≤ n ∧
  ∀ g ctx h rel,
    waiting w !! g = Some (AddCall ctx h rel) →
    Blocked w g ↔
      Z.of_nat (length (available w)) = n ∧
      is_done (cancelled w) ctx = false ∧
      ¬ (n = 0 ∧ get_waiting w).
Proof.
  intros Hp Hr. destruct (reached_bounded n p Hp tr w rs Hr) as [Hb Hc].
  split; [by eapply reached_conservation|]. split; [by rewrite <-Hc|].
  intros g ctx h rel Hw. rewrite (Add_blocked w g ctx h rel Hw), Hc in *.
  split.
  - intros (Hfull & Hd & Hng). split; [lia|]. split; [done|].
    intros [-> Hg]. apply Hng. split; [|done].
    destruct (available w); [done|simpl in Hb; lia].
  - intros (Hfull & Hd & Hng). split; [lia|]. split; [done|].
    intros [Hnil Hg]. apply Hng. split; [|done].
    rewrite Hnil in Hfull. simpl in Hfull. lia.
Qed.

Lemma conservation_and_capacity_witness :
  (length (available inside_third_seed) + length (checked_out inside_third_seed)
   + discarded inside_third_seed = seeded inside_third_seed)%nat ∧
  Z.of_nat (length (available inside_third_seed)) ≤ 1 ∧
  Blocked inside_third_seed 2.
Proof.
  destruct (conservation_and_capacity 1 (mkProversPool (mkchan 1 []))
              third_seed inside_third_seed _ eq_refl run_third_seed)
    as (Hsum & Hle & Hblocked).
  split; [exact Hsum|]. split; [exact Hle|].
  apply (Hblocked 2%nat Background (ClientAt 3) false eq_refl).
  split; [reflexivity|]. split; [reflexivity|]. intros [H _]. discriminate H.
Defined.

(** ** Errors *)

(** C6.  Whatever the world and the step, a [Get] that returns gives a nil
    error, or the error [tracerr.Wrap(common.ErrDone)], which is not nil and
    which [IsErrDone] recognises; [IsErrDone] is false on the nil error.
    [Add] returns nothing. *)
Theorem only_error_is_ErrDone w ev w' rs g r :
  step ev w = Some (w', rs) →
  (g, r) ∈ rs →
  match r with
  | GetRet (h, err) =>
      (err = nil ∧ common.IsErrDone err = false) ∨
      (err = tracerr.Wrap common.ErrDone ∧ err ≠ nil ∧ common.IsErrDone err = true)
  | AddRet u => u = tt
  end.
Proof.
  intros Hs Hin. destruct (step_returning _ _ _ _ _ _ Hs Hin);
    first [ done | by left | right ].
  split; [done|]. split; [apply Wrap_ErrDone_not_nil|].
  apply IsErrDone_Wrap_ErrDone.
Qed.

Lemma only_error_is_ErrDone_witness :
  (tracerr.Wrap common.ErrDone = nil ∧
   common.IsErrDone (tracerr.Wrap common.ErrDone) = false) ∨
  (tracerr.Wrap common.ErrDone = tracerr.Wrap common.ErrDone ∧
   tracerr.Wrap common.ErrDone ≠ nil ∧
   common.IsErrDone (tracerr.Wrap common.ErrDone) = true).
Proof.
  exact (only_error_is_ErrDone inside_get_after_cancel (Proceed 1 0) _ _ 1%nat
           (GetRet (NilClient, tracerr.Wrap common.ErrDone))
           get_after_cancel_done (list_elem_of_here _ _)).
Defined.

(** ** Cancellation *)

(** C4.  In any world, for a goroutine [g]:

    - in any step, a [Get] of [g] that returns an error returns no handle,
      the error is [tracerr.Wrap(common.ErrDone)], and the pool, what was
      sent and received, and the handles held are as they were; an [Add]
      of [g] that takes its [ctx.Done()] case returns (nothing: it has no
      error result), and the pool and what was sent are as they were.
      Both calls are over;
    - a [Get] of [g] whose context is cancelled does return in that way:
      the step in which it takes its [ctx.Done()] case exists;
    - an [Add] of [g] whose context is cancelled does return in that way:
      the step in which it takes its [ctx.Done()] case exists, the call
      returns to its caller, and the handle was not inserted. *)
Theorem cancellation_is_atomic w g :
  (∀ ev w' rs,
     step ev w = Some (w', rs) →
     (∀ h err,
        (g, GetRet (h, err)) ∈ rs → err ≠ nil →
        h = NilClient ∧ err = tracerr.Wrap common.ErrDone ∧
        pp w' = pp w ∧ sent w' = sent w ∧ recvd w' = recvd w ∧ out w' = out w ∧
        waiting w' !! g = None) ∧
     (∀ ctx h rel,
        waiting w !! g = Some (AddCall ctx h rel) → ev = Proceed g 1 →
        rs = [(g, AddRet tt)] ∧
        pp w' = pp w ∧ sent w' = sent w ∧ recvd w' = recvd w ∧
        waiting w' !! g = None)) ∧
  (∀ ctx,
     waiting w !! g = Some (GetCall ctx) → is_done (cancelled w) ctx = true →
     ∃ w', step (Proceed g 0) w
           = Some (w', [(g, GetRet (NilClient, tracerr.Wrap common.ErrDone))]) ∧
           pp w' = pp w ∧ sent w' = sent w ∧ recvd w' = recvd w ∧ out w' = out w ∧
           waiting w' !! g = None) ∧
  (∀ ctx h rel,
     waiting w !! g = Some (AddCall ctx h rel) → is_done (cancelled w) ctx = true →
     ∃ w', step (Proceed g 1) w = Some (w', [(g, AddRet tt)]) ∧
           pp w' = pp w ∧ sent w' = sent w ∧ recvd w' = recvd w ∧
           available w' = available w ∧
           waiting w' !! g = None).
Proof.
  split; [|split].
  - intros ev w' rs Hs. split.
    + intros h err Hin Herr.
      pose proof (step_returning _ _ _ _ _ _ Hs Hin) as Hr.
      inversion Hr; simplify_eq; simpl.
      by rewrite lookup_delete_eq.
    + intros ctx h rel Hw ->. simpl in Hs. rewrite Hw in Hs. simpl in Hs.
      destruct (is_done (cancelled w) ctx); simpl in Hs; [|done].
      injection Hs as <- <-. simpl. by rewrite lookup_delete_eq.
  - intros ctx Hw Hd. eexists. simpl. rewrite Hw. simpl. rewrite Hd. simpl.
    split; [reflexivity|]. simpl. by rewrite lookup_delete_eq.
  - intros ctx h rel Hw Hd. eexists. simpl. rewrite Hw. simpl. rewrite Hd. simpl.
    split; [reflexivity|]. simpl. by rewrite lookup_delete_eq.
Qed.

Lemma cancellation_is_atomic_witness :
  pp (mkWorld (mkProversPool (mkchan 1 [ClientAt 1])) [1%nat] ∅ []
        [ClientAt 1] [] 1 0)
  = pp inside_get_after_cancel ∧
  (∃ w', step (Proceed 1 0) inside_get_after_cancel
         = Some (w', [(1%nat, GetRet (NilClient, tracerr.Wrap common.ErrDone))]) ∧
         pp w' = pp inside_get_after_cancel ∧
         sent w' = sent inside_get_after_cancel ∧
         recvd w' = recvd inside_get_after_cancel ∧
         out w' = out inside_get_after_cancel ∧
         waiting w' !! 1%nat = None) ∧
  (∃ w', step (Proceed 2 1) inside_add_after_cancel = Some (w', [(2%nat, AddRet tt)]) ∧
         pp w' = pp inside_add_after_cancel ∧
         sent w' = sent inside_add_after_cancel ∧
         recvd w' = recvd inside_add_after_cancel ∧
         available w' = available inside_add_after_cancel ∧
         waiting w' !! 2%nat = None).
Proof.
  split; [|split].
  - destruct (cancellation_is_atomic inside_get_after_cancel 1%nat) as [Hstep _].
    destruct (Hstep (Proceed 1 0) _ _ get_after_cancel_done) as [Hget _].
    destruct (Hget NilClient (tracerr.Wrap common.ErrDone) (list_elem_of_here _ _)
                Wrap_ErrDone_not_nil) as (_ & _ & Hpp & _).
    exact Hpp.
  - destruct (cancellation_is_atomic inside_get_after_cancel 1%nat) as (_ & Hget & _).
    exact (Hget (WithCancel 1) eq_refl eq_refl).
  - destruct (cancellation_is_atomic inside_add_after_cancel 2%nat) as (_ & _ & Hadd).
    exact (Hadd (WithCancel 1) (ClientAt 2) false eq_refl eq_refl).
Defined.

(** C5, as stated, fails: with the context already cancelled and a handle
    available, [Get] can still return the handle and take it out of the
    pool. *)
Lemma Get_after_cancel_may_take_handle :
  ¬ (∀ n p tr w rs0 g ctx ev w' rs r,
       NewProversPool n = Returns p →
       run tr (start p) = Some (w, rs0) →
       waiting w !! g = Some (GetCall ctx) →
       is_done (cancelled w) ctx = true →
       step ev w = Some (w', rs) →
       (g, r) ∈ rs →
       r = GetRet (NilClient, tracerr.Wrap common.ErrDone) ∧ pp w' = pp w).
Proof.
  intros H.
  destruct (H 1 _ _ _ _ 1%nat (WithCancel 1) _ _ _ _
              eq_refl run_get_after_cancel eq_refl eq_refl
              get_after_cancel_recv (list_elem_of_here _ _)) as [Hr _].
  discriminate Hr.
Qed.

(** C5, amended.  A goroutine inside [Get] or [Add] whose context is
    already cancelled is not blocked: it can return at once by its
    [ctx.Done()] case, [Get] with no handle and
    [tracerr.Wrap(common.ErrDone)], and the pool is unchanged.  That is the
    only way it returns when the other case cannot proceed: for [Get], no
    handle is available and no [Add] is waiting; for [Add], the buffer is
    full and no [Get] is waiting on an empty buffer. *)
Theorem cancelled_context_never_blocks w g c :
  waiting w !! g = Some c →
  is_done (cancelled w) (call_ctx c) = true →
  ¬ Blocked w g ∧
  (∃ w', step (Proceed g (done_case c)) w = Some (w', [(g, cancelled_ret c)]) ∧
         pp w' = pp w ∧ sent w' = sent w ∧ recvd w' = recvd w) ∧
  (match c with
   | GetCall _ => available w = [] ∧ ¬ add_waiting w
   | AddCall _ _ _ =>
       ¬ Z.of_nat (length (available w)) < capacity w ∧
       ¬ (available w = [] ∧ get_waiting w)
   end →
   ∀ ev w' rs r,
     step ev w = Some (w', rs) → (g, r) ∈ rs →
     r = cancelled_ret c ∧ pp w' = pp w ∧ sent w' = sent w ∧ recvd w' = recvd w).
Proof.
  intros Hw Hd.
  assert (∃ w', step (Proceed g (done_case c)) w = Some (w', [(g, cancelled_ret c)]) ∧
                pp w' = pp w ∧ sent w' = sent w ∧ recvd w' = recvd w) as Hcan.
  { destruct c as [ctx|ctx h rel]; simpl in Hd; eexists; simpl; rewrite Hw; simpl;
      rewrite Hd; simpl; done. }
  split; [|split; [done|]].
  - intros [_ Hb]. destruct Hcan as (w' & Hs & _).
    apply (Hb _ _ _ Hs). apply list_elem_of_here.
  - clear Hcan. intros Hother ev w' rs r Hs Hin.
    pose proof (step_returning _ _ _ _ _ _ Hs Hin) as Hr.
    destruct c as [ctx|ctx h rel]; simpl in *;
      inversion Hr; simplify_eq; try done; destruct Hother as [Ha Hb].
    + congruence.
    + exfalso. apply Hb. by repeat eexists.
    + unfold capacity in Ha. lia.
    + exfalso. apply Hb. split; [done|]. by repeat eexists.
Qed.

Lemma cancelled_context_never_blocks_witness :
  ¬ Blocked inside_get_after_cancel 1.
Proof.
  exact (proj1 (cancelled_context_never_blocks inside_get_after_cancel 1%nat
                  (GetCall (WithCancel 1)) eq_refl eq_refl)).
Defined.

(** ** Get *)

(** C3, as stated, fails: with a handle available and the context already
    cancelled, [Get] can return the cancellation error and leave the handle
    where it is. *)
Lemma Get_may_ignore_available_handle :
  ¬ (∀ n p tr w rs0 g ctx v rest ev w' rs r,
       NewProversPool n = Returns p →
       run tr (start p) = Some (w, rs0) →
       waiting w !! g = Some (GetCall ctx) →
       available w = v :: rest →
       step ev w = Some (w', rs) →
       (g, r) ∈ rs →
       r = GetRet (v, nil)).
Proof.
  intros H.
  pose proof (H 1 _ _ _ _ 1%nat (WithCancel 1) (ClientAt 1) [] _ _ _ _
                eq_refl run_get_after_cancel eq_refl eq_refl
                get_after_cancel_done (list_elem_of_here _ _)) as Hr.
  discriminate Hr.
Qed.

(** C3, amended.  For a goroutine inside [Get]:
    - with a handle available, it can return at once with the oldest
      handle and a nil error, and that handle is no longer available; when
      its context is not cancelled, that is the only way it can return;
    - it is blocked exactly when no handle is available, its context is not
      cancelled and no [Add] is waiting to hand over a handle;
    - a step in which it does not return leaves it inside [Get];
    - with its context cancelled, it can return at once with no handle and
      [tracerr.Wrap(common.ErrDone)], the pool unchanged;
    - with no handle available, it returns either that way, its context
      being cancelled, or with the handle of an [Add] that was waiting, and
      a nil error. *)
Theorem Get_behaviour w g ctx :
  waiting w !! g = Some (GetCall ctx) →
  (∀ v rest,
     available w = v :: rest →
     (∃ w', step (Proceed g 1) w = Some (w', [(g, GetRet (v, nil))]) ∧
            available w' = rest) ∧
     (is_done (cancelled w) ctx = false →
      ∀ ev w' rs r,
        step ev w = Some (w', rs) → (g, r) ∈ rs →
        r = GetRet (v, nil) ∧ available w' = rest)) ∧
  (Blocked w g ↔
     available w = [] ∧ is_done (cancelled w) ctx = false ∧ ¬ add_waiting w) ∧
  (∀ ev w' rs,
     step ev w = Some (w', rs) → g ∉ rs.*1 →
     waiting w' !! g = Some (GetCall ctx)) ∧
  (is_done (cancelled w) ctx = true →
   ∃ w', step (Proceed g 0) w
         = Some (w', [(g, GetRet (NilClient, tracerr.Wrap common.ErrDone))]) ∧
         pp w' = pp w) ∧
  (available w = [] →
   ∀ ev w' rs r,
     step ev w = Some (w', rs) → (g, r) ∈ rs →
     (r = GetRet (NilClient, tracerr.Wrap common.ErrDone) ∧
      is_done (cancelled w) ctx = true) ∨
     (∃ g' ctx' h rel,
        waiting w !! g' = Some (AddCall ctx' h rel) ∧ r = GetRet (h, nil))).
Proof.
  intros Hw. split; [|split; [|split; [|split]]].
  - intros v rest Hb. split.
    + eexists. simpl. rewrite Hw. simpl. unfold available in Hb. rewrite Hb.
      simpl. done.
    + intros Hd ev w' rs r Hs Hin.
      pose proof (step_returning _ _ _ _ _ _ Hs Hin) as Hr.
      inversion Hr as [ |ctx0 v0 rest0 Hw0 Hb0| | | |]; simplify_eq; try congruence.
      rewrite Hb in Hb0. by injection Hb0 as <- <-.
  - by apply Get_blocked.
  - intros ev w' rs Hs Hn. by eapply step_still_waiting.
  - intros Hd. eexists. simpl. rewrite Hw. simpl. rewrite Hd. simpl. done.
  - intros Hb ev w' rs r Hs Hin.
    pose proof (step_returning _ _ _ _ _ _ Hs Hin) as Hr.
    inversion Hr; simplify_eq; try congruence.
    + by left.
    + right. by repeat eexists.
Qed.

Lemma Get_behaviour_witness :
  ∃ w', step (Proceed 1 1) inside_get_after_cancel
        = Some (w', [(1%nat, GetRet (ClientAt 1, nil))]) ∧
        available w' = [].
Proof.
  destruct (Get_behaviour inside_get_after_cancel 1%nat (WithCancel 1) eq_refl)
    as (Havail & _).
  exact (proj1 (Havail (ClientAt 1) [] eq_refl)).
Defined.




(** * Part IV: more of the pool, and the converters *)

(** ** The pool: its error, its capacity and the order of its handles *)

(** X1.  [IsErrDone] holds of [ErrDone], bare or wrapped by
    [tracerr.Wrap], and looks through [tracerr.Wrap]: it gives the same
    answer for an error and for the wrapped error; it does not hold of the
    nil error; and among the error variables of [common] it holds of
    [ErrDone] and of no other. *)
Theorem IsErrDone_through_Wrap err :
  common.IsErrDone common.ErrDone = true ∧
  common.IsErrDone (tracerr.Wrap common.ErrDone) = true ∧
  common.IsErrDone nil = false ∧
  common.IsErrDone (tracerr.Wrap err) = common.IsErrDone err ∧
  (common.IsErrDone err = true → err ≠ nil) ∧
  (err ∈ error_variables → (common.IsErrDone err = true ↔ err = common.ErrDone)).
Proof.
  split; [done|]. split; [done|]. split; [done|]. split; [|split].
  - by destruct err.
  - by intros H ->.
  - unfold error_variables. rewrite !elem_of_cons, elem_of_nil.
    intros [->|[->|[->|[->|[->|[->|[->|[]]]]]]]]; done.
Qed.

Lemma alone_Add_full cancelled ctx h n buf :
  is_done cancelled ctx = false →
  n ≤ Z.of_nat (length buf) →
  alone cancelled (Add ctx h) (mkProversPool (mkchan n buf)) = [].
Proof.
  intros Hd Hle. unfold alone, ready. simpl. rewrite Hd.
  destruct (Z.ltb_spec (Z.of_nat (length buf)) n); [lia|done].
Qed.

Lemma add_each_app cancelled ctx (l1 l2 : list Client) p :
  add_each cancelled ctx (l1 ++ l2) p
  = p' ← add_each cancelled ctx l1 p; add_each cancelled ctx l2 p'.
Proof.
  revert p. induction l1 as [|h l1 IH]; intros p; simpl.
  - by rewrite app_nil_r.
  - generalize (alone cancelled (Add ctx h) p). intros xs.
    induction xs as [|x xs IHx]; [done|].
    change ((x :: xs) ≫= ?f) with (f x ++ (xs ≫= f)).
    rewrite bind_app, IH, IHx. done.
Qed.

(** X2.  With a context that is not cancelled and no other goroutine,
    seeding a new pool of capacity [n] with [n] handles fills it: the [n]
    calls of [Add] return, the pool holds the handles in the order they
    were added, and one more [Add] has no outcome, so neither has any
    longer sequence of seeding calls. *)
Theorem seeding_beyond_capacity_blocks cancelled ctx n p (hs : list Client) h :
  is_done cancelled ctx = false →
  NewProversPool n = Returns p →
  Z.of_nat (length hs) = n →
  add_each cancelled ctx hs p = [mkProversPool (mkchan n hs)] ∧
  alone cancelled (Add ctx h) (mkProversPool (mkchan n hs)) = [] ∧
  ∀ more, add_each cancelled ctx (hs ++ h :: more) p = [].
Proof.
  intros Hd [Hn ->]%NewProversPool_Returns Hlen.
  assert (alone cancelled (Add ctx h) (mkProversPool (mkchan n hs)) = []) as Hfull
    by (apply alone_Add_full; [done|lia]).
  assert (add_each cancelled ctx hs (mkProversPool (mkchan n []))
          = [mkProversPool (mkchan n hs)]) as Hfits
    by (rewrite add_each_fits by (done || simpl; lia); done).
  split; [done|]. split; [done|].
  intros more. rewrite add_each_app, Hfits. simpl. by rewrite Hfull.
Qed.

Lemma seeding_beyond_capacity_blocks_witness :
  add_each [7%nat] (WithCancel 1) [ClientAt 1; ClientAt 2]
    (mkProversPool (mkchan 2 []))
  = [mkProversPool (mkchan 2 [ClientAt 1; ClientAt 2])] ∧
  alone [7%nat] (Add (WithCancel 1) (ClientAt 3))
    (mkProversPool (mkchan 2 [ClientAt 1; ClientAt 2])) = [] ∧
  ∀ more, add_each [7%nat] (WithCancel 1)
            ([ClientAt 1; ClientAt 2] ++ ClientAt 3 :: more)
            (mkProversPool (mkchan 2 [])) = [].
Proof.
  exact (seeding_beyond_capacity_blocks [7%nat] (WithCancel 1) 2
           (mkProversPool (mkchan 2 [])) [ClientAt 1; ClientAt 2] (ClientAt 3)
           eq_refl eq_refl eq_refl).
Defined.

(** X3.  With a context that is not cancelled and no other goroutine, a
    [Get] followed by an [Add] of the handle it returned has exactly one
    outcome: the handle that was the oldest in the pool is now the
    youngest, and the others keep their order. *)
Theorem release_after_Get_rotates cancelled ctx n h (rest : list Client) :
  is_done cancelled ctx = false →
  Z.of_nat (length (h :: rest)) ≤ n →
  (x ← alone cancelled (Get ctx) (mkProversPool (mkchan n (h :: rest)));
   alone cancelled (Add ctx x.2.1) x.1)
  = [(mkProversPool (mkchan n (rest ++ [h])), tt)].
Proof.
  intros Hd Hle. rewrite alone_Get by done. simpl.
  rewrite alone_Add by (done || simpl in Hle; lia). done.
Qed.

Lemma release_after_Get_rotates_witness :
  (x ← alone [7%nat] (Get (WithCancel 1))
         (mkProversPool (mkchan 3 [ClientAt 1; ClientAt 2]));
   alone [7%nat] (Add (WithCancel 1) x.2.1) x.1)
  = [(mkProversPool (mkchan 3 [ClientAt 2; ClientAt 1]), tt)].
Proof.
  apply (release_after_Get_rotates [7%nat] (WithCancel 1) 3 (ClientAt 1) [ClientAt 2]);
    [reflexivity | simpl; lia].
Defined.

Lemma got_app rs1 rs2 : got (rs1 ++ rs2) = got rs1 ++ got rs2.
Proof. apply omap_app. Qed.

Lemma step_got ev w w' rs :
  step ev w = Some (w', rs) → recvd w' = recvd w ++ got rs.
Proof.
  intros Hs.
  destruct ev as [g0 ctx|g0 ctx h|g0 ctx h|g0 i|gs gr|id|h]; simpl in Hs;
    unfold enter in Hs.
  - destruct (waiting w !! g0); simplify_eq/=. by rewrite app_nil_r.
  - destruct (waiting w !! g0); simplify_eq/=. by rewrite app_nil_r.
  - case_decide; [|done]. destruct (waiting w !! g0); simplify_eq/=.
    by rewrite app_nil_r.
  - destruct (waiting w !! g0) as [c|] eqn:Hw; simpl in Hs; [|done].
    destruct (call_select c !! i) as [cm|] eqn:Hc; simpl in Hs; [|done].
    destruct (proceed (cancelled w) (pp w) cm) as [[[p' e] r']|] eqn:Hp;
      simpl in Hs; [|done].
    injection Hs as <- <-.
    destruct c as [ctx|ctx h rel]; destruct i as [|[|i]]; simplify_eq/=.
    + destruct (is_done (cancelled w) ctx); simplify_eq/=. by rewrite app_nil_r.
    + destruct (chan_buf (pool (pp w))); simplify_eq/=. done.
    + destruct (Z.of_nat (length (chan_buf (pool (pp w)))) <? chan_cap (pool (pp w)));
        simplify_eq/=. by rewrite app_nil_r.
    + destruct (is_done (cancelled w) ctx); simplify_eq/=. by rewrite app_nil_r.
  - destruct (waiting w !! gs) as [cs|]; simpl in Hs; [|done].
    destruct (waiting w !! gr) as [cr|]; simpl in Hs; [|done].
    destruct cs as [ctx|ctx h rel]; simpl in Hs; [done|].
    destruct cr as [ctx'|ctx' h' rel']; simpl in Hs; [|done].
    destruct (chan_buf (pool (pp w))); [|done].
    by injection Hs as <- <-.
  - injection Hs as <- <-. simpl. by rewrite app_nil_r.
  - case_decide; [|done]. injection Hs as <- <-. simpl. by rewrite app_nil_r.
Qed.

Lemma run_got tr w w' rs :
  run tr w = Some (w', rs) → recvd w' = recvd w ++ got rs.
Proof.
  revert w w' rs. induction tr as [|ev tr IH]; intros w w' rs Hr; simpl in Hr.
  - injection Hr as <- <-. by rewrite app_nil_r.
  - destruct (step ev w) as [[w1 rs1]|] eqn:Hs; simpl in Hr; [|done].
    destruct (run tr w1) as [[w2 rs2]|] eqn:Hr2; simpl in Hr; [|done].
    injection Hr as <- <-.
    rewrite (IH _ _ _ Hr2), (step_got _ _ _ _ Hs), got_app. by rewrite (assoc_L (++)).
Qed.

(** X4.  In every run from a new pool, with any interleaving, cancellation
    and misuse: the handles the calls of [Get] returned with a nil error,
    together with the handles still available, are the handles sent into
    the pool, each as many times as it was sent.  No handle that was sent
    is returned twice, and none is lost.  (Nothing is said of the order in
    which the calls return to their callers, which is the scheduler's.) *)
Theorem Get_returns_what_was_sent n p tr w rs :
  NewProversPool n = Returns p →
  run tr (start p) = Some (w, rs) →
  got rs ++ available w ≡ₚ sent w.
Proof.
  intros Hp Hr. rewrite (reached_history n p Hp tr w rs Hr).
  by rewrite (run_got _ _ _ _ Hr).
Qed.

Lemma Get_returns_what_was_sent_witness :
  got two_workers_returns ++ available after_two_workers ≡ₚ sent after_two_workers.
Proof.
  exact (Get_returns_what_was_sent 2 (mkProversPool (mkchan 2 [])) two_workers
           after_two_workers two_workers_returns eq_refl run_two_workers).
Defined.

(** X5.  In every run from a new pool, a handle that a call of [Get]
    returns with a nil error was given to a seeding call of [Add] of that
    run: the pool hands out nothing that was not put into it. *)
Theorem Get_returns_only_seeded_handles n p tr w rs h :
  NewProversPool n = Returns p →
  run tr (start p) = Some (w, rs) →
  h ∈ got rs → h ∈ seeds tr.
Proof.
  intros [Hn ->]%NewProversPool_Returns Hr Hin.
  apply list_elem_of_omap in Hin as ([g r] & Hin & Hr').
  destruct r as [[h' err]|]; simpl in Hr'; [|done].
  destruct err; simplify_eq.
  apply (run_observed (λ w, ∀ x, x ∈ resident w → x ∈ seeds tr)
           (λ ev, match ev with CallAdd _ _ x => x ∈ seeds tr | _ => True end)
           (λ r, match r with
                 | GetRet (x, nil) => x ∈ seeds tr
                 | _ => True
                 end)) with (tr := tr) (w := start (mkProversPool (mkchan n [])))
         (w' := w) (rs := rs) (g := g) (r := GetRet (h, nil)); try done.
  - intros ev w1 w2 HP Hev Ht x Hx.
    destruct (transition_resident_elem _ _ _ _ Ht Hx) as [Hx'|(g1 & ctx1 & ->)];
      [by apply HP|done].
  - intros w1 g1 r1 w2 HP Hret. unfold resident, inflight in HP.
    destruct Hret as [ctx Hw Hd|ctx v rest Hw Hb|ctx v rel Hw Hlt|ctx v rel Hw Hd
                     |g' ctx v rel ctx' Hw Hw' Hb|g' ctx v rel ctx' Hw' Hw Hb]; try done.
    + apply HP. rewrite Hb. apply list_elem_of_here.
    + apply HP. rewrite !elem_of_app. right. right.
      by eapply (handles_elem add_handle _ g').
  - intros x Hx. by apply elem_of_nil in Hx.
  - apply Forall_forall. intros ev Hev. destruct ev; try done.
    apply list_elem_of_omap. by eexists.
Qed.

Lemma Get_returns_only_seeded_handles_witness :
  ClientAt 2 ∈ got two_workers_returns ∧ ClientAt 2 ∈ seeds two_workers.
Proof.
  assert (ClientAt 2 ∈ got two_workers_returns) as Hgot
    by (apply list_elem_of_further, list_elem_of_here).
  split; [exact Hgot|].
  exact (Get_returns_only_seeded_handles 2 (mkProversPool (mkchan 2 [])) two_workers
           after_two_workers two_workers_returns (ClientAt 2) eq_refl run_two_workers
           Hgot).
Defined.

(** ** Bytes *)

Lemma b2z_range c : 0 ≤ b2z c < 256.
Proof.
  unfold b2z. pose proof (N_ascii_bounded c). lia.
Qed.

Lemma z2b_b2z c : z2b (b2z c) = c.
Proof.
  unfold z2b. rewrite Z.mod_small by apply b2z_range.
  unfold b2z. rewrite N2Z.id. apply ascii_N_embedding.
Qed.

Lemma b2z_z2b z : 0 ≤ z < 256 → b2z (z2b z) = z.
Proof.
  intros Hz. unfold z2b, b2z. rewrite Z.mod_small by done.
  rewrite N_ascii_embedding by lia. lia.
Qed.

Lemma z2b_mod z : z2b (z mod 256) = z2b z.
Proof. unfold z2b. by rewrite Z.mod_mod. Qed.

Lemma b2z_z2b_mod z : b2z (z2b z) = z mod 256.
Proof.
  rewrite <-z2b_mod. apply b2z_z2b. Z.to_euclidean_division_equations. lia.
Qed.

Lemma z2b_eq z c : z mod 256 = b2z c → z2b z = c.
Proof. intros H. rewrite <-z2b_mod, H. apply z2b_b2z. Qed.

Lemma lor_disjoint x b k :
  0 ≤ k → x mod 2 ^ k = 0 → 0 ≤ b < 2 ^ k → Z.lor x b = x + b.
Proof.
  intros Hk Hx Hb. rewrite <-(Z.add_lor_land x b).
  assert (Z.land x b = 0) as ->; [|lia].
  apply Z.bits_inj'. intros n Hn. rewrite Z.land_spec, Z.bits_0.
  destruct (Z.lt_ge_cases n k) as [Hlt|Hge].
  - rewrite (Z.div_mod x (2 ^ k)) by lia. rewrite Hx, Z.add_0_r, Z.mul_comm.
    by rewrite Z.mul_pow2_bits_low.
  - rewrite <-(Z.mod_small b (2 ^ k)) by done.
    rewrite Z.mod_pow2_bits_high by lia. apply andb_false_r.
Qed.

Lemma ascii_cases (P : ascii → Prop) :
  Forall P (ascii_of_nat <$> seq 0 256) → ∀ c, P c.
Proof.
  intros H c. rewrite Forall_forall in H. apply H.
  apply list_elem_of_fmap. exists (nat_of_ascii c). split.
  - by rewrite ascii_nat_embedding.
  - apply elem_of_seq. pose proof (nat_ascii_bounded c). lia.
Qed.

(** ** [strings] *)

Example Split_examples :
  strings.Split (bytes "a:b:c") (bytes ":") = [bytes "a"; bytes "b"; bytes "c"] ∧
  strings.Split (bytes "") (bytes ":") = [bytes ""] ∧
  strings.Split (bytes "cb:cb:") (bytes "cb:") = [bytes ""; bytes ""; bytes ""] ∧
  strings.Split (bytes "aXXXb") (bytes "XX") = [bytes "a"; bytes "Xb"] ∧
  strings.TrimPrefix (bytes "cb:cb:1") (bytes "cb:") = bytes "cb:1" ∧
  strings.TrimPrefix (bytes "xcb:1") (bytes "cb:") = bytes "xcb:1".
Proof. repeat split. Qed.

Lemma HasPrefix_spec s prefix :
  strings.HasPrefix s prefix = true ↔ ∃ rest, s = prefix ++ rest.
Proof.
  revert s. induction prefix as [|p prefix IH]; intros [|c s]; simpl.
  - split; [by exists []|done].
  - split; [by exists (c :: s)|done].
  - split; [done|by intros [? ?]].
  - rewrite andb_true_iff, bool_decide_eq_true, IH. split.
    + intros [-> [rest ->]]. eauto.
    + intros [rest [= -> ->]]. eauto.
Qed.

Lemma HasPrefix_lookup s prefix i x :
  strings.HasPrefix s prefix = true → prefix !! i = Some x → s !! i = Some x.
Proof.
  intros [rest ->]%HasPrefix_spec Hi. by apply lookup_app_l_Some.
Qed.

Lemma TrimPrefix_app prefix s : strings.TrimPrefix (prefix ++ s) prefix = s.
Proof.
  unfold strings.TrimPrefix.
  assert (strings.HasPrefix (prefix ++ s) prefix = true) as ->
    by (apply HasPrefix_spec; eauto).
  by rewrite drop_app_length.
Qed.

Lemma TrimPrefix_no_colon s prefix :
  ":"%char ∈ prefix → ":"%char ∉ s → strings.TrimPrefix s prefix = s.
Proof.
  intros [i Hi]%list_elem_of_lookup_1 Hs. unfold strings.TrimPrefix.
  destruct (strings.HasPrefix s prefix) eqn:Hp; [|done].
  exfalso. apply Hs. eapply list_elem_of_lookup_2. by eapply HasPrefix_lookup.
Qed.

Lemma TrimPrefix_cb_symbol sym rest :
  ":"%char ∉ sym → sym ≠ bytes "cb" →
  strings.TrimPrefix (sym ++ bytes ":" ++ rest) (bytes "cb:") = sym ++ bytes ":" ++ rest.
Proof.
  intros Hsym Hcb. unfold strings.TrimPrefix.
  destruct (strings.HasPrefix _ _) eqn:Hp; [|done]. exfalso.
  apply HasPrefix_spec in Hp as [rest' Hp].
  destruct sym as [|a [|b [|c sym]]]; simplify_eq/=.
  apply Hsym. do 2 right. left.
Qed.

Lemma split_from_nonempty sep s k : strings.split_from sep s k ≠ [].
Proof.
  revert k. induction s as [|c s IH]; intros k; [done|].
  cbn [strings.split_from]. destruct k; [|apply IH].
  destruct (strings.HasPrefix (c :: s) sep); [done|].
  by destruct (strings.split_from sep s 0).
Qed.

Lemma Join_cons e elems sep :
  elems ≠ [] → Join (e :: elems) sep = e ++ sep ++ Join elems sep.
Proof. by destruct elems. Qed.

Lemma Join_split_from sep s k :
  sep ≠ [] → Join (strings.split_from sep s k) sep = drop k s.
Proof.
  intros Hsep. revert k. induction s as [|c s IH]; intros k.
  - by destruct k.
  - destruct k as [|k]; [|apply IH]. cbn [strings.split_from].
    destruct (strings.HasPrefix (c :: s) sep) eqn:Hp.
    + rewrite Join_cons by apply split_from_nonempty. rewrite IH.
      apply HasPrefix_spec in Hp as [rest Hp]. destruct sep as [|z sep]; [done|].
      simpl in Hp. injection Hp as -> ->. simpl. rewrite Nat.sub_0_r.
      by rewrite drop_app_length.
    + specialize (IH 0%nat). rewrite drop_0 in IH.
      pose proof (split_from_nonempty sep s 0) as Hne.
      destruct (strings.split_from sep s 0) as [|piece pieces]; [done|].
      destruct pieces as [|piece' pieces]; simpl in *; by rewrite IH.
Qed.

(** Joining the pieces with the separator gives the string back. *)
Lemma Join_Split s sep : sep ≠ [] → Join (strings.Split s sep) sep = s.
Proof.
  intros Hsep. destruct sep as [|z sep]; [done|].
  unfold strings.Split. by rewrite Join_split_from.
Qed.

Lemma split_from_skip sep l rest :
  strings.split_from sep (l ++ rest) (length l) = strings.split_from sep rest 0.
Proof. induction l as [|c l IH]; [done|]. apply IH. Qed.

Lemma split_from_absent sep s z :
  z ∈ sep → z ∉ s → strings.split_from sep s 0 = [s].
Proof.
  intros [i Hi]%list_elem_of_lookup_1. induction s as [|c s IH]; intros Hz; [done|].
  cbn [strings.split_from]. destruct (strings.HasPrefix (c :: s) sep) eqn:Hp.
  - exfalso. apply Hz. eapply list_elem_of_lookup_2. by eapply HasPrefix_lookup.
  - rewrite IH; [done|]. intros H. apply Hz. by right.
Qed.

Lemma split_from_first init z pre rest :
  z ∉ init → z ∉ pre →
  strings.split_from (init ++ [z]) (pre ++ (init ++ [z]) ++ rest) 0
  = pre :: strings.split_from (init ++ [z]) rest 0.
Proof.
  intros Hinit. induction pre as [|c pre IH]; intros Hpre.
  - simpl. destruct (init ++ [z]) as [|s0 sep] eqn:Hsep; [by destruct init|].
    cbn [app strings.split_from].
    assert (strings.HasPrefix (s0 :: sep ++ rest) (s0 :: sep) = true) as ->
      by (apply HasPrefix_spec; eauto).
    f_equal. simpl. rewrite Nat.sub_0_r. apply split_from_skip.
  - cbn [app strings.split_from].
    destruct (strings.HasPrefix _ _) eqn:Hp.
    + exfalso.
      assert ((init ++ [z]) !! length init = Some z) as Hz
        by (rewrite lookup_app_r, Nat.sub_diag by lia; done).
      pose proof (HasPrefix_lookup _ _ _ _ Hp Hz) as Hl.
      apply list_elem_of_lookup_2 in Hl as Hin.
      change (c :: pre ++ (init ++ [z]) ++ rest)
        with ((c :: pre) ++ (init ++ [z]) ++ rest) in Hl.
      rewrite (assoc_L (++)), (assoc_L (++)), <-(assoc_L (++) _ _ rest) in Hl.
      rewrite lookup_app_l in Hl by (rewrite !length_app; simpl; lia).
      apply list_elem_of_lookup_2 in Hl. apply elem_of_app in Hl as [Hl|Hl]; done.
    + rewrite IH; [done|]. intros H. apply Hpre. by right.
Qed.

Lemma split_from_colon pre rest :
  ":"%char ∉ pre →
  strings.split_from [":"%char] (pre ++ ":"%char :: rest) 0
  = pre :: strings.split_from [":"%char] rest 0.
Proof.
  intros Hpre. exact (split_from_first [] ":"%char pre rest (not_elem_of_nil _) Hpre).
Qed.

Lemma Split_cb pre rest :
  ":"%char ∉ pre → ":"%char ∉ rest →
  strings.Split (pre ++ bytes "cb:" ++ rest) (bytes "cb:") = [pre; rest].
Proof.
  intros Hpre Hrest. unfold strings.Split. change (bytes "cb:") with (bytes "cb" ++ [":"%char]).
  cbn [app bytes list_ascii_of_string].
  change ("c"%char :: "b"%char :: [":"%char]) with (bytes "cb" ++ [":"%char]).
  change (pre ++ "c"%char :: "b"%char :: ":"%char :: rest)
    with (pre ++ (bytes "cb" ++ [":"%char]) ++ rest).
  rewrite split_from_first;
    [|apply (bool_decide_unpack (":"%char ∉ bytes "cb")); vm_compute; exact I|done].
  f_equal. apply (split_from_absent _ _ ":"%char); [|done].
  apply elem_of_app. right. apply list_elem_of_here.
Qed.

Lemma Split_colon3 a b c :
  ":"%char ∉ a → ":"%char ∉ b → ":"%char ∉ c →
  strings.Split (a ++ bytes ":" ++ b ++ bytes ":" ++ c) (bytes ":") = [a; b; c].
Proof.
  intros Ha Hb Hc. unfold strings.Split. cbn [bytes list_ascii_of_string app].
  rewrite !split_from_colon by done.
  rewrite (split_from_absent _ c ":"%char); [done| |done]. apply list_elem_of_here.
Qed.

Lemma Split_colon2 a b :
  ":"%char ∉ a → ":"%char ∉ b →
  strings.Split (a ++ bytes ":" ++ b) (bytes ":") = [a; b].
Proof.
  intros Ha Hb. unfold strings.Split. cbn [bytes list_ascii_of_string app].
  rewrite !split_from_colon by done.
  rewrite (split_from_absent _ b ":"%char); [done| |done]. apply list_elem_of_here.
Qed.

Lemma Split_two s sep a b :
  sep ≠ [] → strings.Split s sep = [a; b] → s = a ++ sep ++ b.
Proof. intros Hsep Hs. by rewrite <-(Join_Split s sep Hsep), Hs. Qed.

Lemma length_two {A} (l : list A) : length l = 2%nat → ∃ a b, l = [a; b].
Proof. destruct l as [|a [|b [|c l]]]; try done. eauto. Qed.

Lemma length_three {A} (l : list A) : length l = 3%nat → ∃ a b c, l = [a; b; c].
Proof. destruct l as [|a [|b [|c [|d l]]]]; try done. eauto. Qed.

(** ** [encoding/base64] *)

Example base64_examples :
  base64.EncodeToString (bytes "Man") = bytes "TWFu" ∧
  base64.EncodeToString (bytes "Ma") = bytes "TWE" ∧
  base64.EncodeToString (bytes "M") = bytes "TQ" ∧
  base64.EncodeToString [z2b 251; z2b 255] = bytes "-_8" ∧
  base64.DecodeString (bytes "TWFu") = Some (bytes "Man") ∧
  base64.DecodeString (bytes "TWF") = Some (bytes "Ma") ∧
  base64.DecodeString ("T" :: "W" :: "010" :: "F" :: "u" :: [])%char = Some (bytes "Man") ∧
  base64.DecodeString (bytes "TWFu=") = None ∧
  base64.DecodeString (bytes "TWFuT") = None ∧
  base64.DecodeString (bytes "TW+u") = None.
Proof. repeat split. Qed.

Lemma triple_ind (P : list ascii → Prop) :
  P [] → (∀ a, P [a]) → (∀ a b, P [a; b]) →
  (∀ a b c rest, P rest → P (a :: b :: c :: rest)) →
  ∀ l, P l.
Proof.
  intros H0 H1 H2 H3.
  assert (∀ l, P l ∧ (∀ a, P (a :: l)) ∧ (∀ a b, P (a :: b :: l))) as H.
  { induction l as [|c l (IH0 & IH1 & IH2)]; [by auto|].
    split; [apply IH1|]. split; [intros a; apply IH2|]. intros a b. by apply H3. }
  intros l. apply H.
Qed.

Ltac bits_to_arith :=
  rewrite ?Z.shiftl_mul_pow2, ?Z.shiftr_div_pow2 by lia;
  change (2 ^ 18) with 262144; change (2 ^ 16) with 65536;
  change (2 ^ 12) with 4096; change (2 ^ 8) with 256; change (2 ^ 6) with 64;
  change 63 with (Z.ones 6); rewrite ?Z.land_ones by lia;
  change (2 ^ 6) with 64.

Lemma val3 a b c :
  Z.lor (Z.lor (Z.shiftl (b2z a) 16) (Z.shiftl (b2z b) 8)) (b2z c)
  = b2z a * 65536 + b2z b * 256 + b2z c.
Proof.
  pose proof (b2z_range a). pose proof (b2z_range b). pose proof (b2z_range c).
  rewrite !Z.shiftl_mul_pow2 by lia. change (2 ^ 16) with 65536. change (2 ^ 8) with 256.
  rewrite (lor_disjoint (b2z a * 65536) _ 16); [|lia| |].
  - rewrite (lor_disjoint _ (b2z c) 8); [done|lia| |].
    + change (2 ^ 8) with 256. Z.to_euclidean_division_equations. lia.
    + change (2 ^ 8) with 256. lia.
  - change (2 ^ 16) with 65536. Z.to_euclidean_division_equations. lia.
  - change (2 ^ 16) with 65536. lia.
Qed.

Lemma val2 a b :
  Z.lor (Z.shiftl (b2z a) 16) (Z.shiftl (b2z b) 8) = b2z a * 65536 + b2z b * 256.
Proof.
  pose proof (b2z_range a). pose proof (b2z_range b).
  rewrite !Z.shiftl_mul_pow2 by lia. change (2 ^ 16) with 65536. change (2 ^ 8) with 256.
  rewrite (lor_disjoint (b2z a * 65536) _ 16); [done|lia| |].
  - change (2 ^ 16) with 65536. Z.to_euclidean_division_equations. lia.
  - change (2 ^ 16) with 65536. lia.
Qed.

Lemma val4 d0 d1 d2 d3 :
  sextet d0 → sextet d1 → sextet d2 → sextet d3 →
  Z.lor (Z.lor (Z.lor (Z.shiftl d0 18) (Z.shiftl d1 12)) (Z.shiftl d2 6)) d3
  = d0 * 262144 + d1 * 4096 + d2 * 64 + d3.
Proof.
  unfold sextet. intros H0 H1 H2 H3.
  rewrite !Z.shiftl_mul_pow2 by lia.
  change (2 ^ 18) with 262144. change (2 ^ 12) with 4096. change (2 ^ 6) with 64.
  rewrite (lor_disjoint (d0 * 262144) _ 18); [|lia| |].
  - rewrite (lor_disjoint _ (d2 * 64) 12); [|lia| |].
    + rewrite (lor_disjoint _ d3 6); [done|lia| |].
      * change (2 ^ 6) with 64. Z.to_euclidean_division_equations. lia.
      * change (2 ^ 6) with 64. lia.
    + change (2 ^ 12) with 4096. Z.to_euclidean_division_equations. lia.
    + change (2 ^ 12) with 4096. lia.
  - change (2 ^ 18) with 262144. Z.to_euclidean_division_equations. lia.
  - change (2 ^ 18) with 262144. lia.
Qed.

Lemma EncodeToString_values src :
  base64.EncodeToString src = base64.encode <$> values src.
Proof.
  induction src as [|a|a b|a b c rest IH] using triple_ind; [done|..].
  - pose proof (b2z_range a). simpl. bits_to_arith. repeat f_equal.
    Z.to_euclidean_division_equations. lia.
  - pose proof (b2z_range a). pose proof (b2z_range b).
    cbn [base64.EncodeToString values fmap list_fmap]. rewrite val2. bits_to_arith.
    repeat f_equal. Z.to_euclidean_division_equations. lia.
  - pose proof (b2z_range a). pose proof (b2z_range b). pose proof (b2z_range c).
    cbn [base64.EncodeToString values fmap list_fmap]. rewrite val3, IH. bits_to_arith.
    repeat f_equal. Z.to_euclidean_division_equations. lia.
Qed.

Lemma decodeMap_encode v : sextet v → base64.decodeMap (base64.encode v) = Some v.
Proof.
  intros Hv.
  assert (v ∈ seqZ 0 64) as Hin by (apply elem_of_seqZ; unfold sextet in Hv; lia).
  clear Hv. revert v Hin. apply Forall_forall.
  refine (@bool_decide_unpack _ (Forall_dec _ _) _). vm_compute. exact I.
Qed.

Lemma encode_decodeMap c v :
  base64.decodeMap c = Some v → sextet v ∧ base64.encode v = c.
Proof.
  assert (∀ c, Is_true match base64.decodeMap c with
                       | Some v => bool_decide (0 ≤ v < 64 ∧ base64.encode v = c)
                       | None => true
                       end) as H.
  { apply ascii_cases.
    refine (@bool_decide_unpack _ (Forall_dec _ _) _). vm_compute. exact I. }
  intros Hv. specialize (H c). rewrite Hv in H. by apply bool_decide_unpack in H.
Qed.

Lemma encode_in_alphabet v : base64.encode v ∈ base64.encodeURL.
Proof.
  unfold base64.encode. destruct (base64.encodeURL !! Z.to_nat v) eqn:Hl; simpl.
  - by eapply list_elem_of_lookup_2.
  - vm_compute. apply list_elem_of_here.
Qed.

Lemma digits_encode vs :
  Forall sextet vs → base64.digits (base64.encode <$> vs) = Some vs.
Proof.
  induction 1 as [|v vs Hv _ IH]; [done|].
  cbn [fmap list_fmap base64.digits]. rewrite decodeMap_encode by done.
  fold (fmap (M:=list) base64.encode vs). by rewrite IH.
Qed.

Lemma values_sextets src : Forall sextet (values src).
Proof.
  unfold sextet.
  induction src as [|a|a b|a b c rest IH] using triple_ind; [done|..];
    pose proof (b2z_range a); try pose proof (b2z_range b);
    try pose proof (b2z_range c); cbn [values];
    repeat (apply Forall_cons; split); try done; try apply Forall_nil;
    Z.to_euclidean_division_equations; lia.
Qed.

Lemma assemble_values src : base64.assemble (values src) = Some src.
Proof.
  induction src as [|a|a b|a b c rest IH] using triple_ind; [done|..].
  - pose proof (b2z_range a) as Ra. cbn [values base64.assemble].
    set (d0 := _ / 262144). set (d1 := _ mod 64).
    assert (sextet d0 ∧ sextet d1) as [H0 H1]
      by (unfold sextet; subst d0 d1; split; Z.to_euclidean_division_equations; lia).
    pose proof (val4 d0 d1 0 0 H0 H1) as Hv. rewrite !Z.shiftl_0_l, !Z.lor_0_r in Hv.
    rewrite Hv by (unfold sextet; lia). bits_to_arith. do 2 f_equal.
    apply z2b_eq. subst d0 d1. Z.to_euclidean_division_equations. lia.
  - pose proof (b2z_range a) as Ra. pose proof (b2z_range b) as Rb. cbn [values base64.assemble].
    set (d0 := _ / 262144). set (d1 := (_ / 4096) mod 64). set (d2 := (_ / 64) mod 64).
    assert (sextet d0 ∧ sextet d1 ∧ sextet d2) as (H0 & H1 & H2)
      by (unfold sextet; subst d0 d1 d2; repeat split;
          Z.to_euclidean_division_equations; lia).
    pose proof (val4 d0 d1 d2 0 H0 H1 H2) as Hv. rewrite !Z.lor_0_r in Hv.
    rewrite Hv by (unfold sextet; lia). bits_to_arith. do 2 f_equal; [|f_equal].
    + apply z2b_eq. subst d0 d1 d2. Z.to_euclidean_division_equations. lia.
    + apply z2b_eq. subst d0 d1 d2. Z.to_euclidean_division_equations. lia.
  - pose proof (b2z_range a) as Ra. pose proof (b2z_range b) as Rb. pose proof (b2z_range c) as Rc.
    cbn [values base64.assemble]. rewrite IH. cbn [fmap option_fmap option_map].
    set (d0 := _ / 262144). set (d1 := (_ / 4096) mod 64). set (d2 := (_ / 64) mod 64).
    set (d3 := _ mod 64).
    assert (sextet d0 ∧ sextet d1 ∧ sextet d2 ∧ sextet d3) as (H0 & H1 & H2 & H3)
      by (unfold sextet; subst d0 d1 d2 d3; repeat split;
          Z.to_euclidean_division_equations; lia).
    rewrite (val4 d0 d1 d2 d3 H0 H1 H2 H3). bits_to_arith.
    do 2 f_equal; [|f_equal; [|f_equal]].
    + apply z2b_eq. subst d0 d1 d2 d3. Z.to_euclidean_division_equations. lia.
    + apply z2b_eq. subst d0 d1 d2 d3. Z.to_euclidean_division_equations. lia.
    + apply z2b_eq. subst d0 d1 d2 d3. Z.to_euclidean_division_equations. lia.
Qed.

Lemma DecodeString_EncodeToString src :
  base64.DecodeString (base64.EncodeToString src) = Some src.
Proof.
  unfold base64.DecodeString. rewrite EncodeToString_values.
  rewrite digits_encode by apply values_sextets. simpl. apply assemble_values.
Qed.

Lemma values_length src :
  Z.of_nat (length (values src)) = (Z.of_nat (length src) * 4 + 2) / 3.
Proof.
  induction src as [|a|a b|a b c rest IH] using triple_ind; [done..|].
  cbn [values length]. rewrite !Nat2Z.inj_succ, IH.
  Z.to_euclidean_division_equations. lia.
Qed.

Lemma EncodeToString_length src :
  Z.of_nat (length (base64.EncodeToString src)) = (Z.of_nat (length src) * 4 + 2) / 3.
Proof. by rewrite EncodeToString_values, length_fmap, values_length. Qed.

Lemma EncodeToString_alphabet src c :
  c ∈ base64.EncodeToString src → c ∈ base64.encodeURL.
Proof.
  rewrite EncodeToString_values. intros (v & -> & _)%list_elem_of_fmap.
  apply encode_in_alphabet.
Qed.

Lemma colon_not_in_alphabet : ":"%char ∉ base64.encodeURL.
Proof.
  apply (bool_decide_unpack (":"%char ∉ base64.encodeURL)). vm_compute. exact I.
Qed.

Lemma EncodeToString_no_colon src : ":"%char ∉ base64.EncodeToString src.
Proof. intros H%EncodeToString_alphabet. by apply colon_not_in_alphabet. Qed.

Lemma digits_length s vs :
  base64.digits s = Some vs →
  (length vs ≤ length s)%nat ∧
  (length vs = length s → s = base64.encode <$> vs ∧ Forall sextet vs).
Proof.
  revert vs. induction s as [|c s IH]; intros vs; cbn [base64.digits].
  - intros [= <-]. done.
  - destruct (base64.decodeMap c) as [v|] eqn:Hc.
    + destruct (base64.digits s) as [vs'|]; [|done]. intros [= <-].
      destruct (IH vs' eq_refl) as [Hle Heq]. split; [simpl; lia|].
      intros [= Hl]. destruct (Heq Hl) as [-> Hall].
      destruct (encode_decodeMap c v Hc) as [Hv <-]. split; [done|]. by constructor.
    + case_bool_decide; [|done]. intros Hd. destruct (IH vs Hd) as [Hle _].
      split; [simpl; lia|]. simpl. lia.
Qed.

Lemma quad_ind (P : list Z → Prop) :
  P [] → (∀ a, P [a]) → (∀ a b, P [a; b]) → (∀ a b c, P [a; b; c]) →
  (∀ a b c d rest, P rest → P (a :: b :: c :: d :: rest)) →
  ∀ l, P l.
Proof.
  intros H0 H1 H2 H3 H4.
  assert (∀ l, P l ∧ (∀ a, P (a :: l)) ∧ (∀ a b, P (a :: b :: l))
               ∧ (∀ a b c, P (a :: b :: c :: l))) as H.
  { induction l as [|d l (IH0 & IH1 & IH2 & IH3)]; [by auto|].
    split; [apply IH1|]. split; [intros a; apply IH2|].
    split; [intros a b; apply IH3|]. intros a b c. by apply H4. }
  intros l. apply H.
Qed.

Lemma assemble_length vs d :
  base64.assemble vs = Some d →
  Z.of_nat (length d) = Z.of_nat (length vs) * 3 / 4.
Proof.
  revert d. induction vs as [|a|a b|a b c|a b c e rest IH] using quad_ind; intros d.
  - by intros [= <-].
  - done.
  - by intros [= <-].
  - by intros [= <-].
  - cbn [base64.assemble]. destruct (base64.assemble rest) as [d'|]; [|done].
    intros [= <-]. cbn [length]. rewrite !Nat2Z.inj_succ, (IH d' eq_refl).
    Z.to_euclidean_division_equations. lia.
Qed.

Lemma assemble_full vs d :
  Forall sextet vs → base64.assemble vs = Some d →
  Z.of_nat (length vs) * 3 = Z.of_nat (length d) * 4 →
  values d = vs.
Proof.
  revert d. induction vs as [|a|a b|a b c|a b c e rest IH] using quad_ind;
    intros d Hall.
  - by intros [= <-].
  - done.
  - intros [= <-]. simpl. lia.
  - intros [= <-]. simpl. lia.
  - cbn [base64.assemble]. destruct (base64.assemble rest) as [d'|] eqn:Hd'; [|done].
    intros [= <-] Hl. cbn [length] in Hl. rewrite !Nat2Z.inj_succ in Hl.
    apply Forall_cons in Hall as [Ha Hall]. apply Forall_cons in Hall as [Hb Hall].
    apply Forall_cons in Hall as [Hc Hall]. apply Forall_cons in Hall as [He Hall].
    cbn [values]. rewrite (IH d' Hall eq_refl) by lia.
    rewrite (val4 a b c e Ha Hb Hc He). bits_to_arith.
    rewrite !b2z_z2b_mod. unfold sextet in *. repeat f_equal; Z.to_euclidean_division_equations; lia.
Qed.

Lemma EncodeToString_DecodeString s d :
  base64.DecodeString s = Some d →
  Z.of_nat (length s) * 3 = Z.of_nat (length d) * 4 →
  base64.EncodeToString d = s.
Proof.
  unfold base64.DecodeString. destruct (base64.digits s) as [vs|] eqn:Hvs; [|done].
  simpl. intros Hd Hl.
  destruct (digits_length s vs Hvs) as [Hle Heq].
  pose proof (assemble_length vs d Hd) as Hdl.
  assert (length vs = length s) as Hlen
    by (apply Nat2Z.inj; revert Hdl; Z.to_euclidean_division_equations; lia).
  destruct (Heq Hlen) as [-> Hall].
  rewrite EncodeToString_values. f_equal. apply assemble_full; [done..|].
  rewrite length_fmap in Hl. lia.
Qed.

(** ** [encoding/hex] *)

Example hex_examples :
  hex.EncodeToString (bytes "Hi!") = bytes "486921" ∧
  hex.DecodeString (bytes "4A6b") = (bytes "Jk", None) ∧
  hex.DecodeString (bytes "48692G") = (bytes "Hi", Some (hex.InvalidByteError "G")) ∧
  hex.DecodeString (bytes "4A6B2") = (bytes "Jk", Some hex.ErrLength) ∧
  hex.DecodeString (bytes "4a6bx") = (bytes "Jk", Some (hex.InvalidByteError "x")).
Proof. repeat split. Qed.

Lemma hexchar_fromHexChar v :
  0 ≤ v < 16 → hex.fromHexChar (hex.hexchar v) = Some v.
Proof.
  intros Hv. assert (v ∈ seqZ 0 16) as Hin by (apply elem_of_seqZ; lia).
  clear Hv. revert v Hin. apply Forall_forall.
  refine (@bool_decide_unpack _ (Forall_dec _ _) _). vm_compute. exact I.
Qed.

Lemma hex_byte v :
  hex.DecodeString [hex.hexchar (Z.shiftr (b2z v) 4); hex.hexchar (Z.land (b2z v) 15)]
  = ([v], None).
Proof.
  pose proof (b2z_range v) as Hv. cbn [hex.DecodeString].
  rewrite Z.shiftr_div_pow2 by lia. change 15 with (Z.ones 4).
  rewrite Z.land_ones by lia. change (2 ^ 4) with 16.
  rewrite !hexchar_fromHexChar by (Z.to_euclidean_division_equations; lia).
  cbn [fst snd]. rewrite Z.shiftl_mul_pow2 by lia. change (2 ^ 4) with 16.
  rewrite (lor_disjoint _ _ 4);
    [|lia|Z.to_euclidean_division_equations; lia
     |change (2 ^ 4) with 16; Z.to_euclidean_division_equations; lia].
  do 2 f_equal. apply z2b_eq. Z.to_euclidean_division_equations. lia.
Qed.

Lemma hex_DecodeString_EncodeToString src :
  hex.DecodeString (hex.EncodeToString src) = (src, None).
Proof.
  induction src as [|v src IH]; [done|].
  unfold hex.EncodeToString in *. cbn [mbind list_bind app] in *.
  pose proof (hex_byte v) as Hb. cbn [hex.DecodeString] in *.
  destruct (hex.fromHexChar (hex.hexchar (Z.shiftr (b2z v) 4))) as [a|]; [|done].
  destruct (hex.fromHexChar (hex.hexchar (Z.land (b2z v) 15))) as [b|]; [|done].
  rewrite IH. cbn [fst snd] in *. by injection Hb as ->.
Qed.

(** ** [strconv] *)

Example strconv_examples :
  strconv.Itoa 0 = bytes "0" ∧
  strconv.Itoa (-45) = bytes "-45" ∧
  strconv.Itoa (2 ^ 63 - 1) = bytes "9223372036854775807" ∧
  strconv.Atoi (bytes "+12") = (12, None) ∧
  strconv.Atoi (bytes "-0012") = (-12, None) ∧
  strconv.Atoi (bytes "") = (0, Some strconv.ErrSyntax) ∧
  strconv.Atoi (bytes "-") = (0, Some strconv.ErrSyntax) ∧
  strconv.Atoi (bytes "12a") = (0, Some strconv.ErrSyntax) ∧
  strconv.Atoi (bytes "1_000") = (0, Some strconv.ErrSyntax) ∧
  strconv.Atoi (bytes "-9223372036854775808") = (- 2 ^ 63, None) ∧
  strconv.Atoi (bytes "9223372036854775808") = (2 ^ 63 - 1, Some strconv.ErrRange) ∧
  strconv.Atoi (bytes "99999999999999999999x") = (2 ^ 63 - 1, Some strconv.ErrRange) ∧
  strconv.Atoi (bytes "9999999999999999999x") = (0, Some strconv.ErrSyntax).
Proof. repeat split. Qed.

Lemma digit_is_digit c : is_digit c → strconv.digit c = Some (b2z c - 48).
Proof.
  unfold is_digit, strconv.digit. intros H. simpl.
  destruct (Z.leb_spec 0 (b2z c - 48)); [|lia].
  destruct (Z.leb_spec (b2z c - 48) 9); [done|lia].
Qed.

Lemma is_digit_z2b u : is_digit (z2b (48 + u mod 10)).
Proof.
  unfold is_digit. rewrite b2z_z2b; Z.to_euclidean_division_equations; lia.
Qed.

Lemma b2z_digit u : b2z (z2b (48 + u mod 10)) - 48 = u mod 10.
Proof. rewrite b2z_z2b; Z.to_euclidean_division_equations; lia. Qed.

Lemma utoa_digits fuel u acc :
  Forall is_digit acc → Forall is_digit (strconv.utoa fuel u acc).
Proof.
  revert u acc. induction fuel as [|fuel IH]; intros u acc Hacc; simpl.
  - constructor; [apply is_digit_z2b|done].
  - destruct (u <? 10); [constructor; [apply is_digit_z2b|done]|].
    apply IH. constructor; [apply is_digit_z2b|done].
Qed.

Lemma utoa_decimal fuel u acc :
  0 ≤ u < 10 * 2 ^ Z.of_nat fuel →
  decimal (strconv.utoa fuel u acc) 0 = decimal acc u.
Proof.
  revert u acc. induction fuel as [|fuel IH]; intros u acc Hu.
  - simpl in *. unfold decimal at 1. cbn [fold_left]. rewrite b2z_digit.
    rewrite Z.mod_small by lia. done.
  - cbn [strconv.utoa]. destruct (Z.ltb_spec u 10).
    + unfold decimal at 1. cbn [fold_left]. rewrite b2z_digit.
      rewrite Z.mod_small by lia. done.
    + rewrite IH.
      * unfold decimal. cbn [fold_left]. rewrite b2z_digit. f_equal.
        Z.to_euclidean_division_equations. lia.
      * rewrite Nat2Z.inj_succ, Z.pow_succ_r in Hu by lia.
        Z.to_euclidean_division_equations. lia.
Qed.

Lemma utoa_length fuel u acc :
  (length acc < length (strconv.utoa fuel u acc))%nat.
Proof.
  revert u acc. induction fuel as [|fuel IH]; intros u acc; simpl; [lia|].
  destruct (u <? 10); [simpl; lia|]. specialize (IH (u / 10) (z2b (48 + u mod 10) :: acc)).
  simpl in IH. lia.
Qed.

Lemma FormatUint_digits u : Forall is_digit (strconv.FormatUint u).
Proof. by apply utoa_digits. Qed.

Lemma FormatUint_decimal u : 0 ≤ u → decimal (strconv.FormatUint u) 0 = u.
Proof.
  intros Hu. unfold strconv.FormatUint. rewrite utoa_decimal; [done|].
  rewrite Z2Nat.id by apply Z.log2_nonneg.
  destruct (Z.eq_dec u 0) as [->|Hne]; [done|].
  pose proof (Z.log2_spec u ltac:(lia)) as [_ Hlt].
  rewrite Z.pow_succ_r in Hlt by apply Z.log2_nonneg.
  pose proof (Z.pow_pos_nonneg 2 (Z.log2 u) ltac:(lia) (Z.log2_nonneg u)). lia.
Qed.

Lemma FormatUint_nonempty u : strconv.FormatUint u ≠ [].
Proof.
  intros H. pose proof (utoa_length (Z.to_nat (Z.log2 u)) u []) as Hl.
  unfold strconv.FormatUint in H. rewrite H in Hl. simpl in Hl. lia.
Qed.

Lemma decimal_mono l n : Forall is_digit l → 0 ≤ n → n ≤ decimal l n.
Proof.
  intros Hl. revert n. induction Hl as [|c l Hc _ IH]; intros n Hn; [done|].
  unfold decimal. cbn [fold_left]. fold (decimal l (n * 10 + (b2z c - 48))).
  unfold is_digit in Hc. etrans; [|apply IH]; lia.
Qed.

Lemma atoi_loop_digits l n :
  Forall is_digit l → strconv.atoi_loop l n = Some (decimal l n).
Proof.
  intros Hl. revert n. induction Hl as [|c l Hc _ IH]; intros n; [done|].
  cbn [strconv.atoi_loop]. rewrite digit_is_digit by done. apply IH.
Qed.

Lemma parse_uint_loop_digits l n :
  Forall is_digit l → 0 ≤ n → decimal l n ≤ strconv.maxUint64 →
  strconv.parse_uint_loop l n = (decimal l n, None).
Proof.
  intros Hl. revert n. induction Hl as [|c l Hc Hl IH]; intros n Hn Hmax; [done|].
  cbn [strconv.parse_uint_loop]. rewrite digit_is_digit by done.
  unfold decimal in Hmax. cbn [fold_left] in Hmax.
  fold (decimal l (n * 10 + (b2z c - 48))) in Hmax.
  pose proof (decimal_mono l (n * 10 + (b2z c - 48)) Hl) as Hm.
  unfold is_digit in Hc. specialize (Hm ltac:(lia)).
  unfold strconv.maxUint64 in *.
  destruct (Z.leb_spec (( 2 ^ 64 - 1) / 10 + 1) n) as [Hc1|Hc1].
  { exfalso. revert Hc1. change (2 ^ 64 - 1) with 18446744073709551615 in *.
    Z.to_euclidean_division_equations. lia. }
  cbn zeta. destruct (Z.ltb_spec (2 ^ 64 - 1) (n * 10 + (b2z c - 48))); [lia|].
  apply IH; [lia|done].
Qed.

Lemma is_digit_not_sign c : is_digit c → c ≠ "-"%char ∧ c ≠ "+"%char.
Proof.
  unfold is_digit. intros H. split; intros ->.
  - change (b2z "-") with 45 in H. lia.
  - change (b2z "+") with 43 in H. lia.
Qed.

Lemma ParseUint_digits l :
  l ≠ [] → Forall is_digit l → decimal l 0 ≤ strconv.maxUint64 →
  strconv.ParseUint l = (decimal l 0, None).
Proof.
  intros Hne Hl Hmax. destruct l; [done|]. by apply parse_uint_loop_digits.
Qed.

Lemma Atoi_digits l :
  l ≠ [] → Forall is_digit l → decimal l 0 < 2 ^ 63 →
  strconv.Atoi l = (decimal l 0, None).
Proof.
  intros Hne Hl Hmax. destruct l as [|c l']; [done|].
  assert (is_digit c) as Hc by (by apply Forall_cons in Hl as [? _]).
  destruct (is_digit_not_sign c Hc) as [Hm Hp].
  unfold strconv.Atoi.
  destruct (bool_decide (0 < length (c :: l'))%nat
            && bool_decide (length (c :: l') < 19)%nat).
  - rewrite !bool_decide_eq_false_2 by done. cbn [orb andb].
    by rewrite atoi_loop_digits.
  - unfold strconv.ParseInt.
    rewrite !bool_decide_eq_false_2 by done. cbn [orb andb negb].
    rewrite ParseUint_digits; [|done..|unfold strconv.maxUint64; lia].
    destruct (Z.leb_spec (2 ^ 63) (decimal (c :: l') 0)); [lia|done].
Qed.

Lemma Atoi_Itoa i :
  - 2 ^ 63 ≤ i < 2 ^ 63 → strconv.Atoi (strconv.Itoa i) = (i, None).
Proof.
  intros Hi. unfold strconv.Itoa. destruct (Z.ltb_spec i 0) as [Hneg|Hpos].
  - pose proof (FormatUint_digits (- i)) as Hd.
    pose proof (FormatUint_decimal (- i) ltac:(lia)) as Hv.
    pose proof (FormatUint_nonempty (- i)) as Hne.
    set (F := strconv.FormatUint (- i)) in *. clearbody F.
    unfold strconv.Atoi.
    destruct (bool_decide (0 < length ("-"%char :: F))%nat
              && bool_decide (length ("-"%char :: F) < 19)%nat).
    + change (bool_decide ("-"%char = "-"%char)) with true. cbn [orb andb].
      assert (¬ (length F < 1)%nat) as Hlen
        by (destruct F; [congruence|simpl; lia]).
      rewrite (bool_decide_eq_false_2 _ Hlen).
      cbn [andb]. rewrite atoi_loop_digits by done. rewrite Hv. f_equal. lia.
    + unfold strconv.ParseInt.
      change (bool_decide ("-"%char = "+"%char)) with false.
      change (bool_decide ("-"%char = "-"%char)) with true. cbn [orb].
      rewrite ParseUint_digits; [|done..|].
      * rewrite Hv. cbn [negb andb].
        destruct (Z.ltb_spec (2 ^ 63) (- i)); [lia|]. f_equal. lia.
      * rewrite Hv. unfold strconv.maxUint64. lia.
  - pose proof (FormatUint_decimal i Hpos) as Hv.
    rewrite Atoi_digits; [by rewrite Hv|apply FormatUint_nonempty
                         |apply FormatUint_digits|rewrite Hv; lia].
Qed.

Lemma colon_not_digit c : is_digit c → c ≠ ":"%char.
Proof. unfold is_digit. intros H ->. change (b2z ":") with 58 in H. lia. Qed.

Lemma Itoa_no_colon i : ":"%char ∉ strconv.Itoa i.
Proof.
  unfold strconv.Itoa. intros Hin.
  assert (∀ u, ":"%char ∉ strconv.FormatUint u) as Hu.
  { intros u H. pose proof (FormatUint_digits u) as Hd. rewrite Forall_forall in Hd.
    by apply (colon_not_digit _ (Hd _ H)). }
  destruct (i <? 0); [|by apply (Hu i)].
  apply elem_of_cons in Hin as [Hin|Hin]; [done|by apply (Hu (- i))].
Qed.

(** ** Baby jubjub keys *)

Lemma copy_array_exact n src : length src = n → copy_array n src = src.
Proof.
  intros <-. unfold copy_array. by rewrite firstn_all, Nat.sub_diag, app_nil_r.
Qed.

Lemma EncodeToString_33 k :
  length k = 32%nat →
  length (base64.EncodeToString (k ++ [converters.byte_sum k])) = 44%nat.
Proof.
  intros Hlen. apply Nat2Z.inj. by rewrite EncodeToString_length, length_app, Hlen.
Qed.

Lemma CbStringToBJJ_accepts pre bjj name :
  length bjj = 32%nat → ":"%char ∉ pre →
  converters.CbStringToBJJ (pre ++ converters.BjjToString bjj) name = (Some bjj, None).
Proof.
  intros Hlen Hpre. unfold converters.CbStringToBJJ, converters.BjjToString.
  rewrite bool_decide_eq_false_2 by (by destruct pre).
  rewrite Split_cb by (done || apply EncodeToString_no_colon).
  cbn [length lookup list_lookup default].
  assert (length (base64.EncodeToString (bjj ++ [converters.byte_sum bjj])) = 44%nat)
    as Hl44.
  { apply Nat2Z.inj. rewrite EncodeToString_length, length_app, Hlen. done. }
  unfold id. rewrite Hl44.
  rewrite (bool_decide_eq_false_2 (2 ≠ 2)%nat), (bool_decide_eq_false_2 (44 ≠ 44)%nat)
    by (intros H; by apply H).
  cbn [orb]. rewrite DecodeString_EncodeToString.
  rewrite bool_decide_eq_false_2 by (rewrite length_app, Hlen; intros H; by apply H).
  change (33 - 1)%nat with 32%nat.
  rewrite take_app_length' by done. rewrite copy_array_exact by done.
  rewrite bool_decide_eq_false_2; [done|].
  intros H. apply H. rewrite lookup_app_r by lia. by rewrite Hlen.
Qed.

Lemma CbStringToBJJ_inv s name k e :
  converters.CbStringToBJJ s name = (Some k, e) →
  e = None ∧ length k = 32%nat ∧ ∃ pre, s = pre ++ converters.BjjToString k.
Proof.
  unfold converters.CbStringToBJJ. case_bool_decide as Hs; [done|].
  destruct (bool_decide (length (strings.Split s (bytes "cb:")) ≠ 2%nat)) eqn:H2; [done|].
  apply bool_decide_eq_false in H2. apply dec_stable in H2.
  apply length_two in H2 as (pre & s1 & Hsplit). rewrite Hsplit.
  cbn [lookup list_lookup default orb]. unfold id.
  case_bool_decide as H44; [done|].
  destruct (base64.DecodeString s1) as [decoded|] eqn:Hdec; [|done].
  case_bool_decide as H33; [done|].
  case_bool_decide as Hsum; [done|].
  change (33 - 1)%nat with 32%nat in *.
  assert (length (take 32 decoded) = 32%nat) as Hl32 by (rewrite length_take; lia).
  rewrite copy_array_exact in * by done.
  intros [= <- <-]. split; [done|]. split; [done|].
  exists pre. apply Split_two in Hsplit; [|done]. rewrite Hsplit. f_equal.
  unfold converters.BjjToString. f_equal.
  assert (take 32 decoded ++ [converters.byte_sum (take 32 decoded)] = decoded) as ->.
  { rewrite <-(take_drop 32 decoded) at 3. f_equal.
    apply list_eq. intros [|i].
    - by rewrite lookup_drop, Nat.add_0_r, Hsum.
    - simpl. rewrite lookup_drop. apply eq_sym, lookup_ge_None_2. lia. }
  symmetry. apply EncodeToString_DecodeString; [done|]. rewrite H44, H33. done.
Qed.

Lemma fold_left_sum rest x :
  b2z (fold_left (λ sum y, z2b (b2z sum + b2z y)) rest x)
  = (b2z x + total rest) mod 256.
Proof.
  revert x. induction rest as [|y rest IH]; intros x; simpl.
  - rewrite Z.add_0_r, Z.mod_small; [done|apply b2z_range].
  - rewrite IH, b2z_z2b_mod, Zplus_mod_idemp_l. f_equal. lia.
Qed.

Lemma byte_sum_total l : b2z (converters.byte_sum l) = total l mod 256.
Proof.
  destruct l as [|x rest]; [done|]. unfold converters.byte_sum.
  by rewrite fold_left_sum.
Qed.

Lemma total_insert l i c d :
  l !! i = Some d → total (<[i:=c]> l) = total l - b2z d + b2z c.
Proof.
  revert i. induction l as [|x l IH]; intros [|i] Hi; simplify_eq/=.
  - lia.
  - rewrite (IH i Hi). lia.
Qed.

Lemma byte_sum_insert l i c d :
  l !! i = Some d → c ≠ d →
  converters.byte_sum (<[i:=c]> l) ≠ converters.byte_sum l.
Proof.
  intros Hi Hne Heq. apply Hne.
  apply (f_equal b2z) in Heq. rewrite !byte_sum_total, (total_insert _ _ _ _ Hi) in Heq.
  pose proof (b2z_range c) as Hc. pose proof (b2z_range d) as Hd.
  rewrite <-(z2b_b2z c), <-(z2b_b2z d). f_equal.
  revert Heq. Z.to_euclidean_division_equations. lia.
Qed.

Lemma cbStrToBJJ_encoded E s k :
  length k = 32%nat →
  strings.TrimPrefix s (bytes "cb:")
  = base64.EncodeToString (k ++ [converters.byte_sum k]) →
  apitypes.cbStrToBJJ E s = (k, None).
Proof.
  intros Hlen Ht. unfold apitypes.cbStrToBJJ. rewrite Ht, EncodeToString_33 by done.
  rewrite (bool_decide_eq_false_2 (44 ≠ 44)%nat) by (intros H; by apply H).
  rewrite DecodeString_EncodeToString.
  rewrite bool_decide_eq_false_2 by (rewrite length_app, Hlen; intros H; by apply H).
  change (33 - 1)%nat with 32%nat.
  rewrite take_app_length' by done. rewrite copy_array_exact by done.
  rewrite bool_decide_eq_false_2; [done|].
  intros H. apply H. rewrite lookup_app_r by lia. by rewrite Hlen.
Qed.

(** X6.  [CbStringToBJJ] undoes [BjjToString]: for every key of 32 bytes
    the string [BjjToString] makes is converted back to that key, with a nil
    error. *)
Theorem CbStringToBJJ_BjjToString bjj name :
  length bjj = 32%nat →
  converters.CbStringToBJJ (converters.BjjToString bjj) name = (Some bjj, None).
Proof.
  intros Hlen. exact (CbStringToBJJ_accepts [] bjj name Hlen (not_elem_of_nil _)).
Qed.

Lemma CbStringToBJJ_BjjToString_witness :
  converters.CbStringToBJJ (converters.BjjToString sample_key) (bytes "bjj")
  = (Some sample_key, None).
Proof.
  apply (CbStringToBJJ_BjjToString sample_key (bytes "bjj")). reflexivity.
Defined.

(** X7.  [CbStringToBJJ] does not ask that the string starts with the
    prefix: it cuts the string at the prefix, and bytes in front of it (with
    no colon among them) change nothing.  The result is that of the string
    [BjjToString] made. *)
Theorem CbStringToBJJ_ignores_what_precedes_cb pre bjj name :
  length bjj = 32%nat → ":"%char ∉ pre →
  converters.CbStringToBJJ (pre ++ converters.BjjToString bjj) name
  = converters.CbStringToBJJ (converters.BjjToString bjj) name.
Proof.
  intros Hlen Hpre. rewrite CbStringToBJJ_accepts by done.
  symmetry. exact (CbStringToBJJ_accepts [] bjj name Hlen (not_elem_of_nil _)).
Qed.

Lemma CbStringToBJJ_ignores_what_precedes_cb_witness :
  converters.CbStringToBJJ (bytes "not a key " ++ converters.BjjToString sample_key)
    (bytes "bjj")
  = converters.CbStringToBJJ (converters.BjjToString sample_key) (bytes "bjj").
Proof.
  apply (CbStringToBJJ_ignores_what_precedes_cb (bytes "not a key ") sample_key
           (bytes "bjj")).
  - reflexivity.
  - apply (bool_decide_unpack (":"%char ∉ bytes "not a key ")). vm_compute. exact I.
Defined.

(** X8.  Whenever [CbStringToBJJ] returns a key, the error is nil, the key
    has 32 bytes, and the string ends with what [BjjToString] makes of that
    key: the 44 characters are the canonical encoding of the key followed by
    its checksum. *)
Theorem CbStringToBJJ_key_is_checked s name k e :
  converters.CbStringToBJJ s name = (Some k, e) →
  e = None ∧ length k = 32%nat ∧ ∃ pre, s = pre ++ converters.BjjToString k.
Proof. apply CbStringToBJJ_inv. Qed.

Lemma CbStringToBJJ_key_is_checked_witness :
  (None : option converters.ConvError) = None ∧
  length sample_key = 32%nat ∧
  ∃ pre, bytes "x" ++ converters.BjjToString sample_key
         = pre ++ converters.BjjToString sample_key.
Proof.
  apply (CbStringToBJJ_key_is_checked
           (bytes "x" ++ converters.BjjToString sample_key) (bytes "bjj") sample_key None).
  vm_compute. reflexivity.
Defined.

(** X9.  The checksum finds every change of one byte of the key: the
    encoding of a key of 32 bytes in which one byte was replaced by another
    value, followed by the checksum of the key as it was, is refused with
    the checksum error. *)
Theorem CbStringToBJJ_detects_a_changed_byte k i c d name :
  length k = 32%nat → k !! i = Some d → c ≠ d →
  converters.CbStringToBJJ
    (bytes "cb:" ++ base64.EncodeToString (<[i:=c]> k ++ [converters.byte_sum k])) name
  = (None, Some (converters.ErrChecksum name)).
Proof.
  intros Hlen Hi Hne. unfold converters.CbStringToBJJ.
  rewrite bool_decide_eq_false_2 by done.
  pose proof (Split_cb [] (base64.EncodeToString (<[i:=c]> k ++ [converters.byte_sum k]))
                (not_elem_of_nil _) (EncodeToString_no_colon _)) as Hs.
  rewrite app_nil_l in Hs. rewrite Hs. clear Hs.
  cbn [length lookup list_lookup default]. unfold id.
  assert (length (<[i:=c]> k) = 32%nat) as Hlen' by (by rewrite length_insert).
  assert (length (base64.EncodeToString (<[i:=c]> k ++ [converters.byte_sum k])) = 44%nat)
    as ->.
  { apply Nat2Z.inj. by rewrite EncodeToString_length, length_app, Hlen'. }
  rewrite (bool_decide_eq_false_2 (2 ≠ 2)%nat), (bool_decide_eq_false_2 (44 ≠ 44)%nat)
    by (intros H; by apply H).
  cbn [orb]. rewrite DecodeString_EncodeToString.
  rewrite bool_decide_eq_false_2 by (rewrite length_app, Hlen'; intros H; by apply H).
  change (33 - 1)%nat with 32%nat.
  rewrite take_app_length' by done. rewrite copy_array_exact by done.
  rewrite bool_decide_eq_true_2; [done|].
  rewrite lookup_app_r by lia. rewrite Hlen'. simpl.
  intros [= Heq]. by apply (byte_sum_insert k i c d Hi Hne).
Qed.

Lemma CbStringToBJJ_detects_a_changed_byte_witness :
  converters.CbStringToBJJ
    (bytes "cb:" ++ base64.EncodeToString
                      (<[0%nat:="X"%char]> sample_key ++ [converters.byte_sum sample_key]))
    (bytes "bjj")
  = (None, Some (converters.ErrChecksum (bytes "bjj"))).
Proof.
  apply (CbStringToBJJ_detects_a_changed_byte sample_key 0 "X"%char "0"%char (bytes "bjj")).
  - reflexivity.
  - reflexivity.
  - discriminate.
Defined.

(** X10.  [StrCbBJJ.UnmarshalText] of [common] never dereferences a nil
    key: it always returns.  With an error the receiver is unchanged; with
    a nil error the text was empty and the receiver is the empty key, or the
    receiver is a key of 32 bytes and the text ends with what [BjjToString]
    makes of it. *)
Theorem StrCbBJJ_UnmarshalText_safe EmptyBJJComp s text :
  ∃ s' err,
    StrCbBJJ_UnmarshalText EmptyBJJComp s text = Returns (s', err) ∧
    match err with
    | Some _ => s' = s
    | None =>
        (text = [] ∧ s' = EmptyBJJComp) ∨
        (length s' = 32%nat ∧ ∃ pre, text = pre ++ converters.BjjToString s')
    end.
Proof.
  unfold StrCbBJJ_UnmarshalText. case_bool_decide as Hl.
  - exists EmptyBJJComp, None. split; [done|]. left. by destruct text.
  - destruct (converters.CbStringToBJJ text []) as [[k|] [e|]] eqn:Hc.
    + by exists s, (Some e).
    + exists k, None. split; [done|]. right.
      by destruct (CbStringToBJJ_inv _ _ _ _ Hc) as (_ & ? & ?).
    + by exists s, (Some e).
    + exfalso. unfold converters.CbStringToBJJ in Hc.
      case_bool_decide as Ht; [by subst|].
      repeat (case_match; try done).
Qed.

(** X11.  In [apitypes], [cbStrToBJJ] (and so [ToBJJ]) undoes [NewCbBJJ]
    for every key of 32 bytes, and [StrCbBJJ.UnmarshalText] sets the
    receiver to that key, with a nil error. *)
Theorem cbStrToBJJ_NewCbBJJ E s0 k :
  length k = 32%nat →
  apitypes.cbStrToBJJ E (apitypes.NewCbBJJ k) = (k, None) ∧
  apitypes.StrCbBJJ_UnmarshalText E s0 (apitypes.NewCbBJJ k) = (k, None).
Proof.
  intros Hlen.
  assert (apitypes.cbStrToBJJ E (apitypes.NewCbBJJ k) = (k, None)) as Hc
    by (apply cbStrToBJJ_encoded; [done|apply TrimPrefix_app]).
  split; [done|]. unfold apitypes.StrCbBJJ_UnmarshalText. by rewrite Hc.
Qed.

Lemma cbStrToBJJ_NewCbBJJ_witness :
  apitypes.cbStrToBJJ sample_empty_key (apitypes.NewCbBJJ sample_key)
  = (sample_key, None) ∧
  apitypes.StrCbBJJ_UnmarshalText sample_empty_key sample_empty_key
    (apitypes.NewCbBJJ sample_key)
  = (sample_key, None).
Proof.
  apply (cbStrToBJJ_NewCbBJJ sample_empty_key sample_empty_key sample_key).
  reflexivity.
Defined.

(** X12.  The two decoders of keys accept different strings.  Without the
    prefix, the 44 characters of a key are accepted by [cbStrToBJJ] of
    [apitypes] and refused, as badly formed, by [CbStringToBJJ] of [common];
    with bytes in front of the prefix it is the other way round. *)
Theorem decoders_differ E pre k name :
  length k = 32%nat → pre ≠ [] → ":"%char ∉ pre →
  let encoded := base64.EncodeToString (k ++ [converters.byte_sum k]) in
  (apitypes.cbStrToBJJ E encoded = (k, None) ∧
   converters.CbStringToBJJ encoded name = (None, Some (converters.ErrFormat name))) ∧
  (apitypes.cbStrToBJJ E (pre ++ bytes "cb:" ++ encoded) = (E, Some apitypes.formatErr) ∧
   converters.CbStringToBJJ (pre ++ bytes "cb:" ++ encoded) name = (Some k, None)).
Proof.
  intros Hlen Hpre Hcolon encoded.
  pose proof (EncodeToString_33 k Hlen) as H44. fold encoded in H44.
  pose proof (EncodeToString_no_colon (k ++ [converters.byte_sum k])) as Hnc.
  fold encoded in Hnc.
  split; split.
  - apply cbStrToBJJ_encoded; [done|]. apply TrimPrefix_no_colon; [|done].
    do 2 right. left.
  - unfold converters.CbStringToBJJ.
    rewrite bool_decide_eq_false_2 by (intros H; by rewrite H in H44).
    unfold strings.Split. cbn [bytes list_ascii_of_string].
    rewrite (split_from_absent _ encoded ":"%char); [done| |done].
    do 2 right. left.
  - unfold apitypes.cbStrToBJJ.
    rewrite bool_decide_eq_true_2; [done|].
    unfold strings.TrimPrefix.
    destruct (strings.HasPrefix (pre ++ bytes "cb:" ++ encoded) (bytes "cb:")) eqn:Hp.
    + exfalso. apply HasPrefix_spec in Hp as [rest Hp].
      destruct pre as [|a [|b [|c pre]]]; simplify_eq/=.
      apply Hcolon. do 2 right. left.
    + rewrite !length_app, H44. simpl. lia.
  - by apply CbStringToBJJ_accepts.
Qed.

Lemma decoders_differ_witness :
  let encoded :=
    base64.EncodeToString (sample_key ++ [converters.byte_sum sample_key]) in
  (apitypes.cbStrToBJJ sample_empty_key encoded = (sample_key, None) ∧
   converters.CbStringToBJJ encoded (bytes "bjj")
   = (None, Some (converters.ErrFormat (bytes "bjj")))) ∧
  (apitypes.cbStrToBJJ sample_empty_key (bytes "x" ++ bytes "cb:" ++ encoded)
   = (sample_empty_key, Some apitypes.formatErr) ∧
   converters.CbStringToBJJ (bytes "x" ++ bytes "cb:" ++ encoded) (bytes "bjj")
   = (Some sample_key, None)).
Proof.
  apply (decoders_differ sample_empty_key (bytes "x") sample_key (bytes "bjj")).
  - reflexivity.
  - discriminate.
  - apply (bool_decide_unpack (":"%char ∉ bytes "x")). vm_compute. exact I.
Defined.

(** ** Account indexes *)

Example StrCbIdx_UnmarshalText_test :
  apitypes.StrCbIdx_UnmarshalText uint64_of_int 0 (bytes "cb:foo:4") = (4, None) ∧
  StrCbIdx_UnmarshalText uint64_of_int (mkStrCbIdx 0 []) (bytes "cb:foo:4")
  = (mkStrCbIdx 4 (bytes "foo"), None).
Proof. repeat split. Qed.

(** Every [uint64] goes to [int] and back unchanged. *)
Lemma uint64_int_uint64 u :
  0 ≤ u < 2 ^ 64 →
  is_int (int_of_uint64 u) ∧ uint64_of_int (int_of_uint64 u) = u.
Proof.
  intros Hu. unfold is_int, int_of_uint64, uint64_of_int.
  destruct (Z.ltb_spec u (2 ^ 63)); (split; [lia|]).
  - apply Z.mod_small. lia.
  - symmetry. apply (Z.mod_unique_pos (u - 2 ^ 64) (2 ^ 64) (-1) u); lia.
Qed.

(** X13.  [StringToIdx] undoes [IdxToCb]: for every index whose [int]
    converts back to it, and every token symbol with no colon, the string
    [IdxToCb] makes is converted to that index and that symbol, with a nil
    error. *)
Theorem StringToIdx_IdxToCb {Idx} (Idx_of_int : Z → Idx) (int_of_Idx : Idx → Z)
    (idx : Idx) (tokenSymbol name : list ascii) :
  is_int (int_of_Idx idx) →
  Idx_of_int (int_of_Idx idx) = idx →
  ":"%char ∉ tokenSymbol →
  StringToIdx Idx_of_int (IdxToCb int_of_Idx idx tokenSymbol) name
  = (mkQueryAccount (Some idx) tokenSymbol, None).
Proof.
  intros Hint Hidx Hsym. unfold StringToIdx, IdxToCb.
  rewrite bool_decide_eq_false_2 by done.
  change (bytes "cb:" ++ ?x) with (bytes "cb" ++ bytes ":" ++ x).
  rewrite Split_colon3; [|apply (bool_decide_unpack (":"%char ∉ bytes "cb")); vm_compute; exact I
                         |done|apply Itoa_no_colon].
  cbn [length lookup list_lookup default]. unfold id.
  rewrite (bool_decide_eq_false_2 (3 ≠ 3)%nat) by (intros H; by apply H).
  rewrite (bool_decide_eq_false_2 (bytes "cb" ≠ bytes "cb")) by (intros H; by apply H).
  cbn [orb]. rewrite Atoi_Itoa by done. by rewrite Hidx.
Qed.

Lemma StringToIdx_IdxToCb_witness :
  StringToIdx uint64_of_int (IdxToCb int_of_uint64 (2 ^ 64 - 1) (bytes "ETH")) (bytes "idx")
  = (mkQueryAccount (Some (2 ^ 64 - 1)) (bytes "ETH"), None).
Proof.
  apply (StringToIdx_IdxToCb uint64_of_int int_of_uint64 (2 ^ 64 - 1) (bytes "ETH")
           (bytes "idx")).
  - vm_compute. split; [intros H; discriminate H | reflexivity].
  - reflexivity.
  - apply (bool_decide_unpack (":"%char ∉ bytes "ETH")). vm_compute. exact I.
Defined.

(** X14.  What [StringToIdx] accepts: when it returns a nil error, either
    the string is empty and the result is the empty [QueryAccount] (with a
    nil index), or the string is the prefix, a symbol, a colon and a number
    that [strconv.Atoi] accepts, and the result is the index of that number
    (converted, so a negative number wraps) with that symbol. *)
Theorem StringToIdx_accepted {Idx} (Idx_of_int : Z → Idx) idxStr name q :
  StringToIdx Idx_of_int idxStr name = (q, None) →
  (idxStr = [] ∧ q = mkQueryAccount None []) ∨
  ∃ symbol number idxInt,
    idxStr = bytes "cb:" ++ symbol ++ bytes ":" ++ number ∧
    strconv.Atoi number = (idxInt, None) ∧
    q = mkQueryAccount (Some (Idx_of_int idxInt)) symbol.
Proof.
  unfold StringToIdx. case_bool_decide as He; [intros [= <-]; by left|].
  destruct (bool_decide (length (strings.Split idxStr (bytes ":")) ≠ 3%nat)) eqn:H3;
    [done|].
  apply bool_decide_eq_false in H3. apply dec_stable in H3.
  apply length_three in H3 as (a & b & c & Hsplit). rewrite Hsplit.
  cbn [lookup list_lookup default orb]. unfold id.
  case_bool_decide as Hcb; [done|]. subst a.
  destruct (strconv.Atoi c) as [idxInt [err|]] eqn:Ha; [done|].
  intros [= <-]. right. exists b, c, idxInt. split; [|done].
  rewrite <-(Join_Split idxStr (bytes ":")) by done. by rewrite Hsplit.
Qed.

Lemma StringToIdx_accepted_witness :
  (bytes "cb:ETH:-1" = [] ∧
   mkQueryAccount (Some (2 ^ 64 - 1)) (bytes "ETH") = mkQueryAccount None []) ∨
  ∃ symbol number idxInt,
    bytes "cb:ETH:-1" = bytes "cb:" ++ symbol ++ bytes ":" ++ number ∧
    strconv.Atoi number = (idxInt, None) ∧
    mkQueryAccount (Some (2 ^ 64 - 1)) (bytes "ETH")
    = mkQueryAccount (Some (uint64_of_int idxInt)) symbol.
Proof.
  apply (StringToIdx_accepted uint64_of_int (bytes "cb:ETH:-1") (bytes "idx")
           (mkQueryAccount (Some (2 ^ 64 - 1)) (bytes "ETH"))).
  vm_compute. reflexivity.
Defined.

(** X15.  [StrCbIdx.UnmarshalText] of [common] undoes [IdxToCb]: the
    receiver becomes the index and the symbol, with a nil error.  The prefix
    is optional: the same string without it gives the same result, unless
    the symbol is the two letters of the prefix (then they are taken for
    the prefix). *)
Theorem StrCbIdx_UnmarshalText_IdxToCb {Idx} (Idx_of_int : Z → Idx)
    (int_of_Idx : Idx → Z) (s : StrCbIdx (Idx:=Idx)) (idx : Idx)
    (tokenSymbol : list ascii) :
  is_int (int_of_Idx idx) →
  Idx_of_int (int_of_Idx idx) = idx →
  ":"%char ∉ tokenSymbol →
  StrCbIdx_UnmarshalText Idx_of_int s (IdxToCb int_of_Idx idx tokenSymbol)
  = (mkStrCbIdx idx tokenSymbol, None) ∧
  (tokenSymbol ≠ bytes "cb" →
   StrCbIdx_UnmarshalText Idx_of_int s
     (tokenSymbol ++ bytes ":" ++ strconv.Itoa (int_of_Idx idx))
   = (mkStrCbIdx idx tokenSymbol, None)).
Proof.
  intros Hint Hidx Hsym.
  assert (∀ text,
            strings.TrimPrefix text (bytes "cb:")
            = tokenSymbol ++ bytes ":" ++ strconv.Itoa (int_of_Idx idx) →
            StrCbIdx_UnmarshalText Idx_of_int s text
            = (mkStrCbIdx idx tokenSymbol, None)) as H.
  { intros text Ht. unfold StrCbIdx_UnmarshalText. rewrite Ht.
    rewrite Split_colon2 by (done || apply Itoa_no_colon).
    cbn [length lookup list_lookup default]. unfold id.
    rewrite (bool_decide_eq_false_2 (2 ≠ 2)%nat) by (intros H; by apply H).
    rewrite Atoi_Itoa by done. by rewrite Hidx. }
  split.
  - apply H. unfold IdxToCb. apply TrimPrefix_app.
  - intros Hcb. apply H. by apply TrimPrefix_cb_symbol.
Qed.

Lemma StrCbIdx_UnmarshalText_IdxToCb_witness :
  StrCbIdx_UnmarshalText uint64_of_int (mkStrCbIdx 0 [])
    (IdxToCb int_of_uint64 259 (bytes "ETH"))
  = (mkStrCbIdx 259 (bytes "ETH"), None) ∧
  (bytes "ETH" ≠ bytes "cb" →
   StrCbIdx_UnmarshalText uint64_of_int (mkStrCbIdx 0 [])
     (bytes "ETH" ++ bytes ":" ++ strconv.Itoa (int_of_uint64 259))
   = (mkStrCbIdx 259 (bytes "ETH"), None)).
Proof.
  apply (StrCbIdx_UnmarshalText_IdxToCb uint64_of_int int_of_uint64 (mkStrCbIdx 0 []) 259
           (bytes "ETH")).
  - vm_compute. split; [intros H; discriminate H | reflexivity].
  - reflexivity.
  - apply (bool_decide_unpack (":"%char ∉ bytes "ETH")). vm_compute. exact I.
Defined.


(** ** Signatures *)

(** X17.  [Value] undoes [NewEthSignature]: for every byte slice that is
    not nil, [NewEthSignature] gives a string, [Value] of that string is the
    slice, with a nil error, and [Scan] of the slice sets the receiver to
    that string. *)
Theorem EthSignature_Value_NewEthSignature (sig : list ascii) :
  ∃ e, apitypes.NewEthSignature (Some sig) = Some e ∧
       apitypes.EthSignature_Value e = (sig, None) ∧
       apitypes.EthSignature_Scan [] (apitypes.SrcBytes (Some sig)) = Returns (e, false).
Proof.
  eexists. split; [done|]. split; [|done].
  unfold apitypes.EthSignature_Value. rewrite TrimPrefix_app.
  apply hex_DecodeString_EncodeToString.
Qed.

(** X18.  [EthSignature.UnmarshalText] sets the receiver to the decoded
    bytes themselves, not to their hexadecimal form: unmarshalling the
    string [NewEthSignature] makes of a slice gives the slice. *)
Theorem EthSignature_UnmarshalText_raw (e sig : list ascii) :
  apitypes.EthSignature_UnmarshalText e (bytes "0x" ++ hex.EncodeToString sig)
  = (sig, None).
Proof.
  unfold apitypes.EthSignature_UnmarshalText. rewrite TrimPrefix_app.
  by rewrite hex_DecodeString_EncodeToString.
Qed.

(** ** Collected fees *)

Section CollectedFeesLemmas.

Context `{Countable TokenID}.

Lemma collect_Panics (order : list (TokenID * option Z)) msg :
  foldl apitypes.collect (Panics msg) order = Panics msg.
Proof. induction order as [|kv order IH]; [done|apply IH]. Qed.

Lemma NewCollectedFeesAPI_loop (order : list (TokenID * option Z))
    (c0 : gmap TokenID (list ascii)) :
  match foldl apitypes.collect (Returns c0) order with
  | Returns c =>
      Forall (λ kv, kv.2 ≠ None) order ∧
      c = foldl (λ c' kv, <[kv.1 := big.String (default 0 kv.2)]> c') c0 order
  | Panics _ => Exists (λ kv, kv.2 = None) order
  end.
Proof.
  revert c0. induction order as [|[k [x|]] order IH]; intros c0; simpl.
  - done.
  - specialize (IH (<[k:=big.String x]> c0)).
    destruct (foldl _ _ order) as [c|msg].
    + destruct IH as [Hall ->]. split; [by constructor|done].
    + by right.
  - rewrite collect_Panics. by left.
Qed.

Lemma foldl_insert_lookup (order : list (TokenID * option Z))
    (c0 : gmap TokenID (list ascii)) k :
  NoDup order.*1 →
  foldl (λ c' kv, <[kv.1 := big.String (default 0 kv.2)]> c') c0 order !! k
  = match list_find (λ kv, kv.1 = k) order with
    | Some (_, kv) => Some (big.String (default 0 kv.2))
    | None => c0 !! k
    end.
Proof.
  revert c0. induction order as [|[k' v] order IH]; intros c0 Hnd; [done|].
  apply NoDup_cons in Hnd as [Hk' Hnd]. cbn [foldl]. rewrite IH by done.
  cbn [list_find fst snd]. case_decide as Hk; simpl in Hk.
  - subst k'. simpl.
    destruct (list_find _ order) as [[i [k2 v2]]|] eqn:Hf; simpl.
    + apply list_find_Some in Hf as (Hl & Hk2 & _). simpl in Hk2. subst k2.
      exfalso. apply Hk'. apply list_elem_of_fmap. exists (k, v2).
      split; [done|]. by eapply list_elem_of_lookup_2.
    + by rewrite lookup_insert_eq.
  - destruct (list_find _ order) as [[i [k2 v2]]|] eqn:Hf; simpl; [done|].
    by rewrite lookup_insert_ne.
Qed.

End CollectedFeesLemmas.

(** X19.  [apitypes.NewCollectedFeesAPI], for every order in which [range] may
    visit the entries: it panics exactly when some value of the map is nil;
    otherwise it returns the map with the same keys, each value the decimal
    string of the value. *)
Theorem NewCollectedFeesAPI_spec `{Countable TokenID}
    (m : gmap TokenID (option Z)) (order : list (TokenID * option Z)) :
  order ≡ₚ map_to_list m →
  match apitypes.NewCollectedFeesAPI order with
  | Returns c =>
      (∀ k, m !! k ≠ Some None) ∧
      ∀ k, c !! k = (m !! k) ≫= apitypes.NewBigIntStr
  | Panics _ => ∃ k, m !! k = Some None
  end.
Proof.
  intros Hperm. unfold apitypes.NewCollectedFeesAPI.
  pose proof (NewCollectedFeesAPI_loop order ∅) as Hloop.
  destruct (foldl _ _ order) as [c|msg].
  - destruct Hloop as [Hall ->]. rewrite Forall_forall in Hall. split.
    + intros k Hk. apply elem_of_map_to_list in Hk. rewrite <-Hperm in Hk.
      by apply (Hall _ Hk).
    + intros k. rewrite foldl_insert_lookup
        by (rewrite Hperm; apply NoDup_fst_map_to_list).
      destruct (list_find _ order) as [[i [k2 v2]]|] eqn:Hf.
      * apply list_find_Some in Hf as (Hl & Hk2 & _). simpl in Hk2. subst k2.
        apply list_elem_of_lookup_2 in Hl. pose proof (Hall _ Hl) as Hv.
        rewrite Hperm in Hl. apply elem_of_map_to_list in Hl. rewrite Hl.
        simpl in *. by destruct v2.
      * rewrite lookup_empty. destruct (m !! k) as [v|] eqn:Hm; [|done].
        exfalso. apply elem_of_map_to_list in Hm. rewrite <-Hperm in Hm.
        apply list_elem_of_lookup_1 in Hm as [i Hi].
        eapply list_find_None in Hf. rewrite Forall_forall in Hf.
        apply (Hf (k, v)); [by eapply list_elem_of_lookup_2|done].
  - apply Exists_exists in Hloop as ([k v] & Hin & Hv). simpl in Hv. subst v.
    exists k. rewrite Hperm in Hin. by apply elem_of_map_to_list in Hin.
Qed.

Lemma NewCollectedFeesAPI_spec_witness :
  match apitypes.NewCollectedFeesAPI (map_to_list sample_fees) with
  | Returns c =>
      (∀ k, sample_fees !! k ≠ Some None) ∧
      ∀ k, c !! k = (sample_fees !! k) ≫= apitypes.NewBigIntStr
  | Panics _ => ∃ k, sample_fees !! k = Some None
  end.
Proof.
  apply (NewCollectedFeesAPI_spec sample_fees (map_to_list sample_fees)). reflexivity.
Defined.

(** ** Big integers *)

Example SetString_examples :
  big.SetString (bytes "-12") = Some (-12) ∧
  big.SetString (bytes "+007") = Some 7 ∧
  big.SetString (bytes "123456789012345678901234567890")
  = Some 123456789012345678901234567890 ∧
  big.SetString (bytes "") = None ∧
  big.SetString (bytes "-") = None ∧
  big.SetString (bytes "1_000") = None ∧
  big.SetString (bytes "12 ") = None ∧
  big.SetString (bytes "0x10") = None.
Proof. repeat split. Qed.

Lemma SetString_FormatUint (u : Z) (neg : bool) :
  0 ≤ u →
  big.SetString (if neg then "-"%char :: strconv.FormatUint u else strconv.FormatUint u)
  = Some (if neg then - u else u).
Proof.
  intros Hu. pose proof (FormatUint_digits u) as Hd.
  pose proof (FormatUint_decimal u Hu) as Hv.
  pose proof (FormatUint_nonempty u) as Hne.
  set (F := strconv.FormatUint u) in *. clearbody F.
  destruct neg.
  - unfold big.SetString. change (bool_decide ("-"%char = "-"%char)) with true.
    cbn [orb]. case_bool_decide; [done|].
    rewrite atoi_loop_digits by done. by rewrite Hv.
  - destruct F as [|c F]; [done|]. unfold big.SetString.
    assert (is_digit c) as Hc by (by apply Forall_cons in Hd as [? _]).
    destruct (is_digit_not_sign c Hc) as [Hm Hp].
    rewrite (bool_decide_eq_false_2 _ Hm), (bool_decide_eq_false_2 _ Hp). cbn [orb].
    case_bool_decide; [done|].
    rewrite atoi_loop_digits by done. by rewrite Hv.
Qed.

(** X20.  [StrBigInt.UnmarshalText] undoes [apitypes.NewBigIntStr]: for every
    integer, of any size and sign, [apitypes.NewBigIntStr] gives a string, and
    unmarshalling that string gives the integer, with no error. *)
Theorem StrBigInt_UnmarshalText_NewBigIntStr (x : Z) :
  ∃ str, apitypes.NewBigIntStr (Some x) = Some str ∧
         StrBigInt_UnmarshalText str = Some x.
Proof.
  exists (big.String x). split; [done|].
  unfold StrBigInt_UnmarshalText, big.String, strconv.Itoa.
  destruct (Z.ltb_spec x 0) as [Hneg|Hpos].
  - rewrite (SetString_FormatUint (- x) true) by lia. f_equal. lia.
  - by rewrite (SetString_FormatUint x false).
Qed.
